(** * muzz: muzzle-energy calculator (src/muzz.c)

    A shallow embedding of [muzz.c] and the properties of its
    command-line parser, formula engine and presenter.

    - C [double] is IEEE-754 binary64: Rocq's primitive [float], whose
      operations are the kernel's binary64 operations (round to nearest,
      ties to even).  Every operation is rounded to double, as where
      FLT_EVAL_METHOD is 0 (x86-64, AArch64).
    - C [int] values that the program stores ([options[]], [valueWanted],
      [argc]) are [Z]; none of them leaves the range of [int].
    - The [int options[TOTAL_OPTIONS]] array is a [list Z] read and written
      by index.
    - The global [double K] and the two output streams form the [world]
      that every procedure threads through.
    - [getopt], [atof], [round] and the [%f] conversion of [printf] belong
      to the C library; they are modelled after ISO C / POSIX. *)

From Stdlib Require Import ZArith List String Ascii Bool Lia.
From Stdlib Require Import Floats.
From Stdlib Require Import DecimalString.
From Stdlib Require Import Reals Lra.
Import ListNotations.

Local Open Scope string_scope.
Local Open Scope Z_scope.

(** ** Characters and strings *)

Definition LF : string := String (ascii_of_nat 10) EmptyString.
Definition TAB : string := String (ascii_of_nat 9) EmptyString.
Definition DQUOTE : string := String (ascii_of_nat 34) EmptyString.

Fixpoint cat (l : list string) : string :=
  match l with
  | [] => EmptyString
  | s :: l' => s ++ cat l'
  end.

(** ** The C library: getopt

    [getopt(argc, argv, optstring)] is called until it returns -1.  Each
    call returns an option character of [optstring], or ['?'] after writing
    a diagnostic to the error stream ([opterr] keeps its default 1) when
    the character is not in [optstring] or a required argument is missing.

    [posix] selects the POSIX behaviour (scanning stops at the first
    operand); otherwise operands are permuted to the end, as the GNU C
    library does unless POSIXLY_CORRECT is set. *)

Inductive getopt_ret : Type :=
  | Found (c : ascii) (optarg : option string)
  | Unknown (c : ascii)
  | Missing (c : ascii).

Definition optString : string := "VhEHSqsimveptcCKk:".

Fixpoint find_opt (c : ascii) (s : string) : option bool :=
  match s with
  | EmptyString => None
  | String d s' =>
      if Ascii.eqb d c
      then Some (match s' with String ":"%char _ => true | _ => false end)
      else find_opt c s'
  end.

(** [Some true]: option taking an argument; [Some false]: plain option;
    [None]: not an option character. *)
Definition lookup_opt (c : ascii) : option bool :=
  if Ascii.eqb c ":"%char then None else find_opt c optString.

(** The option characters of one [argv] element (without its leading
    dash); [next] is the following element.  The boolean tells whether
    [next] was consumed as an option argument. *)
Fixpoint scan_cluster (cs : string) (next : option string)
  : list getopt_ret * bool :=
  match cs with
  | EmptyString => ([], false)
  | String c cs' =>
      match lookup_opt c with
      | None =>
          let (evs, used) := scan_cluster cs' next in (Unknown c :: evs, used)
      | Some false =>
          let (evs, used) := scan_cluster cs' next in
          (Found c None :: evs, used)
      | Some true =>
          match cs' with
          | EmptyString =>
              match next with
              | Some a => ([Found c (Some a)], true)
              | None => ([Missing c], false)
              end
          | _ => ([Found c (Some cs')], false)
          end
      end
  end.

Definition is_option_elem (a : string) : bool :=
  match a with
  | String "-"%char (String _ _) => true
  | _ => false
  end.

Definition cluster_of (a : string) : string :=
  match a with
  | String _ cs => cs
  | EmptyString => EmptyString
  end.

(** All the results of the successive [getopt] calls on [args]
    (= argv[1..]), and the operands left at argv[optind..] once it has
    returned -1. *)
Fixpoint getopt_scan (posix : bool) (args : list string)
  : list getopt_ret * list string :=
  match args with
  | [] => ([], [])
  | a :: rest =>
      if String.eqb a "--" then ([], rest)
      else if is_option_elem a then
        let (evs, used) := scan_cluster (cluster_of a) (hd_error rest) in
        let (evs', ops) :=
          match rest with
          | [] => ([], [])
          | _ :: rest' =>
              if used then getopt_scan posix rest' else getopt_scan posix rest
          end in
        ((evs ++ evs')%list, ops)
      else if posix then ([], a :: rest)
      else
        let (evs, ops) := getopt_scan posix rest in (evs, a :: ops)
  end.

(** ** The C library: doubles, [round], [printf("%.Nf")] and [atof] *)

#[local] Set Warnings "-inexact-float".

(** C [double]. *)
Abbreviation double := float (only parsing).

(** The finite double [(-1)^s * n * 2^0] for [0 <= n < 2^53]. *)
Definition double_of_nat_part (s : bool) (n : Z) : double :=
  match n with
  | Zpos p => SF2Prim (S754_finite s p 0)
  | _ => if s then neg_zero else zero
  end.

(** [m / d] rounded to the nearest integer, halfway cases upward
    ([0 <= m], [0 < d]). *)
Definition nearest_half_up (m d : Z) : Z :=
  if 2 * (m mod d) <? d then m / d else m / d + 1.

(** C99 [round]: nearest integer, halfway cases away from zero; zeros,
    infinities and NaN are returned unchanged and the sign is kept.  The
    magnitude [m * 2^e] is rounded, then the sign is put back. *)
Definition c_round (x : double) : double :=
  match Prim2SF x with
  | S754_finite s m e =>
      if 0 <=? e then x
      else double_of_nat_part s (nearest_half_up (Zpos m) (2 ^ (- e)))
  | _ => x
  end.

(** [n / d] rounded to the nearest integer, ties to even ([0 <= n], [0 < d]). *)
Definition div_nearest_even (n d : Z) : Z :=
  let q := n / d in
  let r := n mod d in
  match 2 * r ?= d with
  | Lt => q
  | Gt => q + 1
  | Eq => if Z.even q then q else q + 1
  end.

Definition digit_char (d : Z) : string :=
  String (ascii_of_nat (48 + Z.to_nat d)) EmptyString.

(** The [p] low decimal digits of [n], most significant first. *)
Fixpoint frac_digits (p : nat) (n : Z) : string :=
  match p with
  | O => EmptyString
  | S p' => digit_char ((n / 10 ^ Z.of_nat p') mod 10) ++ frac_digits p' n
  end.

Definition int_digits (n : Z) : string :=
  NilZero.string_of_uint (N.to_uint (Z.to_N n)).

(** [n] is the value scaled by [10^p]. *)
Definition fixed_digits (p : nat) (n : Z) : string :=
  let scale := 10 ^ Z.of_nat p in
  int_digits (n / scale) ++
  match p with
  | O => EmptyString
  | _ => "." ++ frac_digits p n
  end.

Definition sign_string (s : bool) : string := if s then "-" else EmptyString.

(** [printf("%.pf", x)]: the exact value of [x] rounded to [p] decimals
    (to nearest, ties to even, as the default rounding mode has it).  The
    sign of a NaN, which C leaves to the platform, is not printed. *)
Definition fmt_f (p : nat) (x : double) : string :=
  match Prim2SF x with
  | S754_nan => "nan"
  | S754_infinity s => sign_string s ++ "inf"
  | S754_zero s => sign_string s ++ fixed_digits p 0
  | S754_finite s m e =>
      let num := Zpos m * 10 ^ Z.of_nat p in
      let n := if 0 <=? e then num * 2 ^ e
               else div_nearest_even num (2 ^ (- e)) in
      sign_string s ++ fixed_digits p n
  end.

(** *** atof

    [atof(s)] is [strtod(s, NULL)] in the "C" locale (the program never
    calls [setlocale]): white space is skipped, then an optional sign, then
    the longest prefix that is a decimal or hexadecimal floating constant,
    [inf]/[infinity] or [nan].  When no conversion can be performed the
    result is zero. *)

Definition isspace (c : ascii) : bool :=
  let n := nat_of_ascii c in
  (Nat.eqb n 32 || (Nat.leb 9 n && Nat.leb n 13))%bool.

Fixpoint skip_space (s : string) : string :=
  match s with
  | String c s' => if isspace c then skip_space s' else s
  | EmptyString => s
  end.

Definition digit_val (c : ascii) : option Z :=
  let n := Z.of_nat (nat_of_ascii c) in
  if (48 <=? n) && (n <=? 57) then Some (n - 48) else None.

Definition hex_val (c : ascii) : option Z :=
  let n := Z.of_nat (nat_of_ascii c) in
  if (48 <=? n) && (n <=? 57) then Some (n - 48)
  else if (97 <=? n) && (n <=? 102) then Some (n - 87)
  else if (65 <=? n) && (n <=? 70) then Some (n - 55)
  else None.

(** Reads digits in base [b]: the number read after [acc], how many
    digits were read after [cnt], and the rest of the string. *)
Fixpoint take_digits (val : ascii -> option Z) (b : Z)
    (s : string) (acc cnt : Z) : Z * Z * string :=
  match s with
  | String c s' =>
      match val c with
      | Some d => take_digits val b s' (b * acc + d) (cnt + 1)
      | None => (acc, cnt, s)
      end
  | EmptyString => (acc, cnt, s)
  end.

Definition take_sign (s : string) : bool * string :=
  match s with
  | String "-"%char s' => (true, s')
  | String "+"%char s' => (false, s')
  | _ => (false, s)
  end.

Definition lower (c : ascii) : ascii :=
  let n := nat_of_ascii c in
  if (Nat.leb 65 n && Nat.leb n 90)%bool then ascii_of_nat (n + 32) else c.

(** [p] (in lower case) is a prefix of [s], letter case ignored. *)
Fixpoint prefix_ci (p s : string) : bool :=
  match p, s with
  | EmptyString, _ => true
  | String a p', String b s' => (Ascii.eqb a (lower b) && prefix_ci p' s')%bool
  | String _ _, EmptyString => false
  end.

(** The exponent part, introduced by [e1] or [e2]; it counts only when at
    least one digit follows. *)
Definition parse_exponent (e1 e2 : ascii) (s : string) : Z :=
  match s with
  | String c s1 =>
      if (Ascii.eqb c e1 || Ascii.eqb c e2)%bool then
        let (neg, s2) := take_sign s1 in
        let '(v, cnt, _) := take_digits digit_val 10 s2 0 0 in
        if cnt =? 0 then 0 else if neg then - v else v
      else 0
  | EmptyString => 0
  end.

(** The double nearest to [(-1)^s * d * 10^e]. *)
Definition decimal_value (s : bool) (d e : Z) : spec_float :=
  match d with
  | Zpos m =>
      if 0 <=? e then binary_round prec emax s (Z.to_pos (Zpos m * 10 ^ e)) 0
      else SFdiv prec emax (S754_finite s m 0)
                           (S754_finite false (Z.to_pos (10 ^ (- e))) 0)
  | _ => S754_zero s
  end.

(** The double nearest to [(-1)^s * h * 2^e]. *)
Definition binary_value (s : bool) (h e : Z) : spec_float :=
  match h with
  | Zpos m => binary_round prec emax s m e
  | _ => S754_zero s
  end.

Definition parse_decimal (s : bool) (body : string) : option spec_float :=
  let '(ip, ni, r1) := take_digits digit_val 10 body 0 0 in
  let '(d, nf, r2) :=
    match r1 with
    | String "."%char r => take_digits digit_val 10 r ip 0
    | _ => (ip, 0, r1)
    end in
  if ni + nf =? 0 then None
  else Some (decimal_value s d (parse_exponent "e" "E" r2 - nf)).

Definition parse_hex (s : bool) (body : string) : option spec_float :=
  match body with
  | String "0"%char (String x r0) =>
      if (Ascii.eqb x "x" || Ascii.eqb x "X")%bool then
        let '(ip, ni, r1) := take_digits hex_val 16 r0 0 0 in
        let '(h, nf, r2) :=
          match r1 with
          | String "."%char r => take_digits hex_val 16 r ip 0
          | _ => (ip, 0, r1)
          end in
        if ni + nf =? 0 then None
        else Some (binary_value s h (parse_exponent "p" "P" r2 - 4 * nf))
      else None
  | _ => None
  end.

(** [None]: no conversion could be performed. *)
Definition strtod (str : string) : option spec_float :=
  let (s, body) := take_sign (skip_space str) in
  if prefix_ci "inf" body then Some (S754_infinity s)
  else if prefix_ci "nan" body then Some S754_nan
  else
    match parse_hex s body with
    | Some v => Some v
    | None => parse_decimal s body
    end.

Definition atof (str : string) : double :=
  match strtod str with
  | Some v => SF2Prim v
  | None => zero
  end.

(** ** The program state

    What a run can change: the global [double K] and what has been written
    to the two streams, in the order of the writes.  A diagnostic that
    [getopt] itself writes to the error stream is recorded as such; its
    wording is the C library's. *)

Inductive event : Type :=
  | Stdout (s : string)
  | Stderr (s : string)
  | GetoptDiag (r : getopt_ret).

Record world : Type := mkWorld { K : double; trace : list event }.

(** Static storage is zero-initialised. *)
Definition initial_world : world := {| K := zero; trace := [] |}.

Definition proc : Type := world -> world.

Definition seq (p q : proc) : proc := fun w => q (p w).
Notation "p ;; q" := (seq p q) (at level 90, right associativity).

Definition skip : proc := fun w => w.

Definition emit (e : event) : proc :=
  fun w => {| K := K w; trace := (trace w ++ [e])%list |}.

Definition set_K (k : double) : proc :=
  fun w => {| K := k; trace := trace w |}.

Inductive FILE : Type := stdout | stderr.

Definition fprintf (fp : FILE) (s : string) : proc :=
  match fp with
  | stdout => emit (Stdout s)
  | stderr => emit (Stderr s)
  end.

Definition printf (s : string) : proc := fprintf stdout s.
Definition putchar (s : string) : proc := fprintf stdout s.

Fixpoint stdout_of (t : list event) : string :=
  match t with
  | [] => EmptyString
  | Stdout s :: t' => s ++ stdout_of t'
  | _ :: t' => stdout_of t'
  end.

(** What the program itself wrote to the error stream. *)
Fixpoint stderr_of (t : list event) : string :=
  match t with
  | [] => EmptyString
  | Stderr s :: t' => s ++ stderr_of t'
  | _ :: t' => stderr_of t'
  end.

(** ** Constants and enumerations *)

Definition VERSION : string := "1.01".

(** [enum ParametersGiven] *)
Definition PARAM_MASS : Z := 0.
Definition PARAM_VELOCITY : Z := 1.
Definition PARAM_ENERGY : Z := 2.

(** [enum OptionsEnum], used as array indices *)
Definition OPT_VERBOSE : nat := 0.
Definition OPT_SI : nat := 1.
Definition OPT_PRECISE : nat := 2.
Definition OPT_TKOF : nat := 3.
Definition OPT_K : nat := 4.
Definition TOTAL_OPTIONS : nat := 5.

Definition GRAVITY_IMPERIAL_APPROX : double := 32.163%float.
Definition GRAVITY_IMPERIAL : double := 32.1739%float.

(** [options[i]] and [options[i] = v]; every index the program uses is
    below [TOTAL_OPTIONS]. *)
Definition opt_get (options : list Z) (i : nat) : Z := nth i options 0.

Fixpoint opt_set (options : list Z) (i : nat) (v : Z) : list Z :=
  match options, i with
  | [], _ => []
  | _ :: t, O => v :: t
  | h :: t, S i' => h :: opt_set t i' v
  end.

(** ** Informational texts *)

Definition print_usage (fp : FILE) : proc :=
  fprintf fp (cat ["Usage:  muzz [OPTION] MASS VELOCITY [DIAMETER]"; LF]).

Definition print_help : proc :=
  print_usage stdout ;;
  printf (cat [LF; "The program is used primarily to calculate the muzzle energy "]) ;;
  printf (cat ["of projectiles."; LF; LF]) ;;
  printf (cat ["Imperial gravity accleration constants (K = 2 * GAC * 7000) :"; LF]) ;;
  printf (cat ["GAC-1 (industry):  32.163"; TAB]) ;;
  printf (cat ["GAC-2 (standard):  32.1739"; LF]) ;;
  printf (cat [LF; "Options"; LF]) ;;
  printf (cat ["  -h"; TAB; TAB; "Print this help text"; LF]) ;;
  printf (cat ["  -H"; TAB; TAB; "Print additional information on units used, etc."; LF]) ;;
  printf (cat ["  -E"; TAB; TAB; "Print example usage"; LF]) ;;
  printf (cat ["  -V"; TAB; TAB; "Print version and author info"; LF]) ;;
  printf (cat ["  -S or q"; TAB; "Silent (quiet) mode; print only the resultant number"; LF]) ;;
  printf (cat ["  -s"; TAB; TAB; "Use Si (metric) units of measure - grams, m/s, joules"; LF]) ;;
  printf (cat ["  -i"; TAB; TAB; "Use Imperial units - grains, ft/s, lbf (default)"; LF]) ;;
  printf (cat ["  -m"; TAB; TAB; "Calculate for mass (num1 = velocity, num2 = energy)"; LF]) ;;
  printf (cat ["  -v"; TAB; TAB; "Calculate for velocity (num1 = mass, num2 = energy)"; LF]) ;;
  printf (cat ["  -e"; TAB; TAB; "Calculate for energy (num1 = mass, num2 = velocity) "]) ;;
  printf (cat ["(default)"; LF]) ;;
  printf (cat ["  -K"; TAB; TAB; "Use industry standard imperial constant (450,240) "]) ;;
  printf (cat [" (default)"; LF]) ;;
  printf (cat ["  -k [num]"; TAB; "Custom user constant"; LF]) ;;
  printf (cat ["  -c"; TAB; TAB; "Calculate constant using 'industry' GAC-1"; LF]) ;;
  printf (cat ["  -C"; TAB; TAB; "Calculate constant using standard GAC-2"; LF]) ;;
  printf (cat ["  -p"; TAB; TAB; "Be precise (do not round any numbers)"; LF; "  "]) ;;
  printf (cat ["-t"; TAB; TAB; "Use Taylor Knockout Formula (give mass, velocity, diameter)"]) ;;
  putchar LF.

Definition print_examples : proc :=
  printf (cat ["Examples:"; LF; LF]) ;;
  printf (cat ["muzz 230 900"; LF]) ;;
  printf (cat ["  Returns muzzle energy of a 230 grain bullet @ 900 ft/s"; LF]) ;;
  printf (cat [LF; "muzz -s 15 270"; LF]) ;;
  printf (cat ["  Using Si units of measure, returns joules (15grams @ 270 m/s)"; LF]) ;;
  printf (cat [LF; "muzz -qp 230 900"; LF]) ;;
  printf (cat ["  Same, but only the number and with nothing rounded"; LF]) ;;
  printf (cat [LF; "muzz -mq 900 414"; LF]) ;;
  printf ("  Given the velocity and muzzle energy, it will return only the ") ;;
  printf (cat ["mass"; LF; "  of the projectile."; LF]) ;;
  printf (cat [LF; "muzz -t 230 860 .45"; LF]) ;;
  printf ("  Prints result using Taylor Knockout Formula, with the params") ;;
  printf (cat [" being"; LF; "  the mass (grains), velocity (ft/s) and diameter"; LF]) ;;
  printf (cat [LF; "muzz -ts 15 255 11.6"; LF]) ;;
  printf (cat ["  Same, but using Si units (grams, meters/second, mm)"; LF]).

Definition print_additional_help : proc :=
  printf (cat ["All units of measure are Imperial by default.  U-S-A!  U-S-A!"; LF; LF]) ;;
  printf (cat ["Weight:"; LF]) ;;
  printf (cat ["  Si:"; TAB; TAB; "Grams (g)"; LF]) ;;
  printf (cat ["  Imperial:"; TAB; "Grains (gr) (7000 per pound)"; LF; LF]) ;;
  printf (cat ["Velocity:"; LF]) ;;
  printf (cat ["  Si:"; TAB; TAB; "Meters per second (m/s)"; LF]) ;;
  printf (cat ["  Imperial:"; TAB; "Feet per second (ft/s)"; LF; LF]) ;;
  printf (cat ["Diameter:"; LF]) ;;
  printf (cat ["  Si:"; TAB; TAB; "Millimeters (mm)"; LF]) ;;
  printf (cat ["  Imperial:"; TAB; "Inch caliber (fractions of inch) (ex.: .45)"; LF; LF]) ;;
  printf (cat ["Energy:"; LF]) ;;
  printf (cat ["  Si:"; TAB; TAB; "Joules (J)"; LF]) ;;
  printf (cat ["  Imperial:"; TAB; "Foot-pounds (lbf)"; LF; LF]) ;;
  printf (cat [LF; "To calculate the standard muzzle energy of a projectile:"; LF; LF]) ;;
  printf (cat ["  Si:"; TAB; TAB; "( 2 * mass * (velocity*velocity)) / K"; LF]) ;;
  printf (cat ["  Imperial:"; TAB; "( mass * (velocity*velocity)) / K"; LF; LF]) ;;
  printf (cat ["  Default values of K are 450240 (Imperial) or 1000 (Si)."; LF]) ;;
  printf ("  To use different numbers to calculate K, use the '-c' or '-C' ") ;;
  printf (cat ["options:"; LF]) ;;
  printf (cat ["    -c:"; TAB; TAB; "K = 2 * 32.163 * 7000"; LF]) ;;
  printf (cat ["    -C:"; TAB; TAB; "K = 2 * 32.1739 * 7000"; LF; LF]) ;;
  printf (cat ["  You can also use the '-k' option to use a custom constant."; LF; LF]) ;;
  printf ("The Taylor Knockout Formula, if used, will return a number that's") ;;
  printf (cat [" roughly the"; LF]) ;;
  printf ("same regardless of whether or not the user chooses Si or ") ;;
  printf (cat ["Imperial units"; LF]) ;;
  printf (cat ["of measure.  The formula is as follows:"; LF; LF]) ;;
  printf (cat ["  Si:"; TAB; TAB; "( mass * velocity * diameter ) / 3500"; LF]) ;;
  printf (cat ["  Imperial:"; TAB; "( mass * velocity * diameter ) / 7000"; LF; LF]).

Definition print_version : proc :=
  printf (cat ["muzz.c, version "; VERSION; LF]) ;;
  printf (cat ["James Hendrie <hendrie.james@gmail.com>"; LF]).

(** ** Formula engine

    The three formulas, written once over the arithmetic they use, so
    that they can be read both on doubles (what the program computes) and
    on real numbers (what the formulas mean).  [K] is the global the C
    functions read. *)

Module Formula.
Section Engine.
Context {T : Type}.
Variables (mul div : T -> T -> T) (sqrt : T -> T) (two : T).
Variable K : T.

Definition get_energy (mass velocity : T) (si : Z) : T :=
  if si =? 1
  then div (mul (div mass two) (mul velocity velocity)) K
  else div (mul mass (mul velocity velocity)) K.

Definition get_mass (velocity energy : T) (si : Z) : T :=
  if si =? 1
  then mul (div (mul energy two) (mul velocity velocity)) K
  else mul (div energy (mul velocity velocity)) K.

Definition get_velocity (mass energy : T) (si : Z) : T :=
  if si =? 1
  then sqrt (mul (div (mul energy two) mass) K)
  else sqrt (mul (div energy mass) K).
End Engine.
End Formula.

(** The program's functions: binary64 arithmetic. *)
Definition get_energy (K mass velocity : double) (si : Z) : double :=
  Formula.get_energy PrimFloat.mul PrimFloat.div 2%float K mass velocity si.

Definition get_mass (K velocity energy : double) (si : Z) : double :=
  Formula.get_mass PrimFloat.mul PrimFloat.div 2%float K velocity energy si.

Definition get_velocity (K mass energy : double) (si : Z) : double :=
  Formula.get_velocity PrimFloat.mul PrimFloat.div PrimFloat.sqrt 2%float
    K mass energy si.

(** The same formulas in exact real arithmetic. *)
Module Exact.
Definition get_energy (K mass velocity : R) (si : Z) : R :=
  Formula.get_energy Rmult Rdiv 2%R K mass velocity si.

Definition get_mass (K velocity energy : R) (si : Z) : R :=
  Formula.get_mass Rmult Rdiv 2%R K velocity energy si.

Definition get_velocity (K mass energy : R) (si : Z) : R :=
  Formula.get_velocity Rmult Rdiv R_sqrt.sqrt 2%R K mass energy si.
End Exact.

(** ** Presenter *)

Definition verbose_result (mass velocity energy : double) (options : list Z)
  : proc :=
  if opt_get options OPT_VERBOSE =? 1 then
    if opt_get options OPT_SI =? 1 then
      if opt_get options OPT_PRECISE =? 1 then
        printf (cat [fmt_f 2 mass; " g @ "; fmt_f 2 velocity; " m/s = ";
                     fmt_f 2 energy; " J"; LF])
      else
        printf (cat [fmt_f 2 mass; " g @ "; fmt_f 2 velocity; " m/s = ";
                     fmt_f 0 (c_round energy); " J"; LF])
    else
      if opt_get options OPT_PRECISE =? 1 then
        printf (cat [fmt_f 2 mass; " gr @ "; fmt_f 2 velocity; " ft/s = ";
                     fmt_f 2 energy; " lbf"; LF])
      else
        printf (cat [fmt_f 0 (c_round mass); " gr @ ";
                     fmt_f 0 (c_round velocity); " ft/s = ";
                     fmt_f 0 (c_round energy); " lbf"; LF])
  else skip.

(** The first block of [result]: "Here, we set the constant." *)
Definition resolve_K (options : list Z) : proc :=
  (if opt_get options OPT_K =? -1 then set_K 450240%float
   else if opt_get options OPT_K =? 1
        then set_K (2 * GRAVITY_IMPERIAL_APPROX * 7000)%float
   else if opt_get options OPT_K =? 2
        then set_K (2 * GRAVITY_IMPERIAL * 7000)%float
   else skip) ;;
  (if (opt_get options OPT_SI =? 1) && negb (opt_get options OPT_K =? 0)
   then set_K 1000%float
   else skip).

(** The value computed by the [switch( param )] of [result], with the
    verbose line it prints. *)
Definition solve (mass velocity energy : double) (param : Z)
    (options : list Z) (w : world) : double * world :=
  if param =? PARAM_ENERGY then
    let r := get_energy (K w) mass velocity (opt_get options OPT_SI) in
    (r, verbose_result mass velocity r options w)
  else if param =? PARAM_MASS then
    let r := get_mass (K w) velocity energy (opt_get options OPT_SI) in
    (r, verbose_result r velocity energy options w)
  else if param =? PARAM_VELOCITY then
    let r := get_velocity (K w) mass energy (opt_get options OPT_SI) in
    (r, verbose_result mass r energy options w)
  else ((-1)%float, w).

Definition result (mass velocity energy : double) (param : Z)
    (options : list Z) : proc :=
  fun w =>
    let w1 := resolve_K options w in
    let (result, w2) := solve mass velocity energy param options w1 in
    if negb (opt_get options OPT_VERBOSE =? 1) then
      if opt_get options OPT_PRECISE =? 1
      then printf (cat [fmt_f 2 result; LF]) w2
      else printf (cat [fmt_f 0 result; LF]) w2
    else w2.

Definition tkof (mass velocity diameter : double) (options : list Z) : proc :=
  if opt_get options OPT_SI =? 1 then
    let ko := (mass * velocity * diameter / 3500)%float in
    if opt_get options OPT_VERBOSE =? 1 then
      printf (cat [fmt_f 2 mass; " g @ "; fmt_f 2 velocity; " m/s (";
                   fmt_f 2 diameter; " mm diameter) = "; fmt_f 2 ko;
                   " TKOF"; LF])
    else printf (cat [fmt_f 2 ko; LF])
  else
    let ko := (mass * velocity * diameter / 7000)%float in
    if opt_get options OPT_VERBOSE =? 1 then
      if opt_get options OPT_PRECISE =? 1 then
        printf (cat [fmt_f 2 mass; " gr @ "; fmt_f 2 velocity; " ft/s (";
                     fmt_f 3 diameter; DQUOTE; " diameter) = "; fmt_f 2 ko;
                     " "]) ;;
        printf (cat ["TKOF"; LF])
      else
        printf (cat [fmt_f 0 (c_round mass); " gr @ ";
                     fmt_f 0 (c_round velocity); " ft/s (";
                     fmt_f 3 diameter; DQUOTE; " diameter) = "; fmt_f 2 ko;
                     " "]) ;;
        printf (cat ["TKOF"; LF])
    else printf (cat [fmt_f 2 ko; LF]).

(** ** main *)

Definition init_options : list Z :=
  opt_set (repeat (-1) TOTAL_OPTIONS) OPT_VERBOSE 1.

Definition optarg_text (optarg : option string) : string :=
  match optarg with
  | Some a => a
  | None => EmptyString
  end.

(** One pass through the body of the [while( opt != -1 )] loop. *)
Inductive step_result : Type :=
  | Return (code : Z)
  | Next (options : list Z) (valueWanted : Z).

Definition switch_opt (opt : ascii) (optarg : option string)
    (options : list Z) (valueWanted : Z) (w : world) : step_result * world :=
  match opt with
  | "h"%char => (Return 0, print_help w)
  | "V"%char => (Return 0, print_version w)
  | "H"%char => (Return 0, print_additional_help w)
  | "E"%char => (Return 0, print_examples w)
  | "S"%char
  | "q"%char => (Next (opt_set options OPT_VERBOSE (-1)) valueWanted, w)
  | "s"%char => (Next (opt_set options OPT_SI 1) valueWanted, w)
  | "i"%char => (Next (opt_set options OPT_SI (-1)) valueWanted, w)
  | "m"%char => (Next options PARAM_MASS, w)
  | "v"%char => (Next options PARAM_VELOCITY, w)
  | "e"%char => (Next options PARAM_ENERGY, w)
  | "c"%char => (Next (opt_set options OPT_K 1) valueWanted, w)
  | "C"%char => (Next (opt_set options OPT_K 2) valueWanted, w)
  | "k"%char => (Next (opt_set options OPT_K 0) valueWanted,
                 set_K (atof (optarg_text optarg)) w)
  | "K"%char => (Next (opt_set options OPT_K (-1)) valueWanted, w)
  | "p"%char => (Next (opt_set options OPT_PRECISE 1) valueWanted, w)
  | "t"%char => (Next (opt_set options OPT_TKOF 1) valueWanted, w)
  | _ => (Next options valueWanted, w)
  end.

(** What one [getopt] call does to the world and hands to the [switch]:
    on ['?'] the library has written its diagnostic and no case matches. *)
Definition getopt_step (r : getopt_ret) (options : list Z) (valueWanted : Z)
    (w : world) : step_result * world :=
  match r with
  | Found c optarg => switch_opt c optarg options valueWanted w
  | Unknown _ | Missing _ =>
      switch_opt "?"%char None options valueWanted (emit (GetoptDiag r) w)
  end.

Fixpoint option_loop (rs : list getopt_ret) (options : list Z)
    (valueWanted : Z) (w : world) : step_result * world :=
  match rs with
  | [] => (Next options valueWanted, w)
  | r :: rs' =>
      match getopt_step r options valueWanted w with
      | (Return code, w') => (Return code, w')
      | (Next options' valueWanted', w') =>
          option_loop rs' options' valueWanted' w'
      end
  end.

Definition view_help : proc :=
  fprintf stderr (cat [LF; "To view help, run with -h argument."; LF]).

(** The part of [main] after the option loop; [operands] are
    argv[1], argv[2], ... once [argv] and [argc] have been adjusted. *)
Definition run (options : list Z) (valueWanted : Z) (operands : list string)
    (w : world) : Z * world :=
  let argc := 1 + Z.of_nat (List.length operands) in
  let argv (i : nat) := nth (i - 1) operands EmptyString in
  let finish (mass velocity diameter energy : double) : Z * world :=
    if opt_get options OPT_TKOF =? -1 then
      let '(mass, velocity, energy) :=
        if valueWanted =? PARAM_ENERGY
        then (atof (argv 1%nat), atof (argv 2%nat), energy)
        else if valueWanted =? PARAM_MASS
        then (mass, atof (argv 1%nat), atof (argv 2%nat))
        else if valueWanted =? PARAM_VELOCITY
        then (atof (argv 1%nat), velocity, atof (argv 2%nat))
        else (mass, velocity, energy) in
      (0, result mass velocity energy valueWanted options w)
    else (0, tkof mass velocity diameter options w) in
  if argc >? 1 then
    if argc =? 2 then
      (1, (fprintf stderr (cat ["ERROR:  Need more than one parameter"; LF]) ;;
           print_usage stderr ;; view_help) w)
    else if opt_get options OPT_TKOF =? 1 then
      if argc <=? 3 then
        (1, (fprintf stderr "ERROR:  The Taylor Knockout Formula requires " ;;
             fprintf stderr (cat ["three paramters:"; LF]) ;;
             fprintf stderr
               (cat ["Mass, Velocity and Diameter of projectile"; LF]) ;;
             print_usage stderr ;; view_help) w)
      else
        finish (atof (argv 1%nat)) (atof (argv 2%nat)) (atof (argv 3%nat))
               (-1)%float
    else
      finish (atof (argv 1%nat)) (atof (argv 2%nat)) (-1)%float (-1)%float
  else
    (1, (fprintf stderr (cat ["ERROR:  Parameters required"; LF]) ;;
         print_usage stderr ;; view_help) w).

Definition main (posix : bool) (argv : list string) (w : world) : Z * world :=
  let argc := Z.of_nat (List.length argv) in
  if argc <? 2 then
    (1, (fprintf stderr (cat ["ERROR:  Too few arguments"; LF]) ;;
         print_usage stderr ;; view_help) w)
  else
    let (rs, operands) := getopt_scan posix (tl argv) in
    match option_loop rs init_options PARAM_ENERGY w with
    | (Return code, w') => (code, w')
    | (Next options valueWanted, w') => run options valueWanted operands w'
    end.

(** ** Reading an invocation

    What the flags of a command line select, read directly off the
    results of [getopt]: within each group the last flag wins. *)

Definition informational (c : ascii) : bool :=
  match c with
  | "h"%char | "V"%char | "H"%char | "E"%char => true
  | _ => false
  end.

Definition is_info (r : getopt_ret) : bool :=
  match r with
  | Found c _ => informational c
  | _ => false
  end.

(** The first informational flag that [getopt] returns, if any. *)
Fixpoint first_info (rs : list getopt_ret) : option ascii :=
  match rs with
  | [] => None
  | r :: rs' =>
      match r with
      | Found c _ => if informational c then Some c else first_info rs'
      | _ => first_info rs'
      end
  end.

Definition info_text (c : ascii) : proc :=
  match c with
  | "h"%char => print_help
  | "V"%char => print_version
  | "H"%char => print_additional_help
  | "E"%char => print_examples
  | _ => skip
  end.

Definition or_else {A : Type} (o : option A) (d : A) : A :=
  match o with
  | Some a => a
  | None => d
  end.

Fixpoint last_wins {A : Type} (pick : getopt_ret -> option A)
    (rs : list getopt_ret) (d : A) : A :=
  match rs with
  | [] => d
  | r :: rs' => last_wins pick rs' (or_else (pick r) d)
  end.

Definition flag_value {A : Type} (table : ascii -> option A)
    (r : getopt_ret) : option A :=
  match r with
  | Found c _ => table c
  | _ => None
  end.

Definition pick_verbose : getopt_ret -> option Z :=
  flag_value (fun c => match c with
                       | "S"%char | "q"%char => Some (-1)
                       | _ => None
                       end).

Definition pick_si : getopt_ret -> option Z :=
  flag_value (fun c => match c with
                       | "s"%char => Some 1
                       | "i"%char => Some (-1)
                       | _ => None
                       end).

Definition pick_precise : getopt_ret -> option Z :=
  flag_value (fun c => match c with
                       | "p"%char => Some 1
                       | _ => None
                       end).

Definition pick_tkof : getopt_ret -> option Z :=
  flag_value (fun c => match c with
                       | "t"%char => Some 1
                       | _ => None
                       end).

Definition pick_k : getopt_ret -> option Z :=
  flag_value (fun c => match c with
                       | "K"%char => Some (-1)
                       | "k"%char => Some 0
                       | "c"%char => Some 1
                       | "C"%char => Some 2
                       | _ => None
                       end).

Definition pick_wanted : getopt_ret -> option Z :=
  flag_value (fun c => match c with
                       | "m"%char => Some PARAM_MASS
                       | "v"%char => Some PARAM_VELOCITY
                       | "e"%char => Some PARAM_ENERGY
                       | _ => None
                       end).

Definition pick_custom (r : getopt_ret) : option double :=
  match r with
  | Found "k"%char optarg => Some (atof (optarg_text optarg))
  | _ => None
  end.

(** The selections of a command line whose getopt results are [rs]. *)
Definition verbose_of (rs : list getopt_ret) : Z := last_wins pick_verbose rs 1.
Definition si_of (rs : list getopt_ret) : Z := last_wins pick_si rs (-1).
Definition precise_of (rs : list getopt_ret) : Z :=
  last_wins pick_precise rs (-1).
Definition tkof_of (rs : list getopt_ret) : Z := last_wins pick_tkof rs (-1).
Definition k_of (rs : list getopt_ret) : Z := last_wins pick_k rs (-1).
Definition wanted_of (rs : list getopt_ret) : Z :=
  last_wins pick_wanted rs PARAM_ENERGY.
Definition custom_of (rs : list getopt_ret) (k0 : double) : double :=
  last_wins pick_custom rs k0.

Definition is_target (r : getopt_ret) : bool :=
  match pick_wanted r with
  | Some _ => true
  | None => false
  end.

(** The constant the specification assigns to a constant mode [k]
    (-1 default, 1 approximate gravity, 2 standard gravity, 0 custom) and a
    unit system [si] (1 metric), [custom] being the value given with -k. *)
Definition expected_K (k si : Z) (custom : double) : double :=
  if k =? 0 then custom
  else if si =? 1 then 1000%float
  else if k =? -1 then 450240%float
  else if k =? 1 then (2 * 32.163 * 7000)%float
  else if k =? 2 then (2 * 32.1739 * 7000)%float
  else custom.

(** [x] is within the relative tolerance [tol] of [y], as a C test would
    write it: [fabs(x - y) <= tol * fabs(y)]. *)
Definition close_to (tol x y : double) : bool :=
  (abs (x - y) <=? tol * abs y)%float.
(** A procedure that only appends [t] to the trace. *)
Definition writes (p : proc) (t : list event) : Prop :=
  forall w, p w = {| K := K w; trace := (trace w ++ t)%list |}.


(** [o'], [vw'] and [w'] are [o], [vw] and [w] after the flags [rs]: each
    option slot, the wanted value and [K] hold what the last flag of their
    group selected, and the program has written nothing. *)
Definition after_flags (rs : list getopt_ret)
    (o : list Z) (vw : Z) (w : world)
    (o' : list Z) (vw' : Z) (w' : world) : Prop :=
  List.length o' = 5%nat /\
  opt_get o' OPT_VERBOSE = last_wins pick_verbose rs (opt_get o OPT_VERBOSE) /\
  opt_get o' OPT_SI = last_wins pick_si rs (opt_get o OPT_SI) /\
  opt_get o' OPT_PRECISE = last_wins pick_precise rs (opt_get o OPT_PRECISE) /\
  opt_get o' OPT_TKOF = last_wins pick_tkof rs (opt_get o OPT_TKOF) /\
  opt_get o' OPT_K = last_wins pick_k rs (opt_get o OPT_K) /\
  vw' = last_wins pick_wanted rs vw /\
  K w' = last_wins pick_custom rs (K w) /\
  stdout_of (trace w') = stdout_of (trace w) /\
  stderr_of (trace w') = stderr_of (trace w).

(** The three inputs that the [switch( valueWanted )] of [main] hands to
    [result], read from the first two operands. *)
Definition standard_inputs (valueWanted : Z) (p1 p2 : string)
  : double * double * double :=
  if valueWanted =? PARAM_ENERGY then (atof p1, atof p2, (-1)%float)
  else if valueWanted =? PARAM_MASS then (atof p1, atof p1, atof p2)
  else if valueWanted =? PARAM_VELOCITY then (atof p1, atof p2, atof p2)
  else (atof p1, atof p2, (-1)%float).

(** The error exits of [main]: the message, the usage line and the pointer
    to [-h], all on the error stream. *)
Definition usage_error (message : list string) : list event :=
  (map Stderr message ++
   [Stderr (cat ["Usage:  muzz [OPTION] MASS VELOCITY [DIAMETER]"; LF]);
    Stderr (cat [LF; "To view help, run with -h argument."; LF])])%list.

Definition not_target (r : getopt_ret) : bool := negb (is_target r).

(** The message of the error exit that an argument count leads to:
    [n_argv] elements in [argv], [n_ops] operands, knockout mode or not. *)
Definition count_error (n_argv n_ops : nat) : list string :=
  if Nat.ltb n_argv 2 then [cat ["ERROR:  Too few arguments"; LF]]
  else
    match n_ops with
    | 0%nat => [cat ["ERROR:  Parameters required"; LF]]
    | 1%nat => [cat ["ERROR:  Need more than one parameter"; LF]]
    | _ => ["ERROR:  The Taylor Knockout Formula requires ";
            cat ["three paramters:"; LF];
            cat ["Mass, Velocity and Diameter of projectile"; LF]]
    end.

(** Characters with which a numeric text can start: white space, a sign,
    a digit, the radix character, or the first letter of inf or nan. *)
Definition starts_numeric (c : ascii) : bool :=
  (isspace c
   || match digit_val c with Some _ => true | None => false end
   || match lower c with
      | "+"%char | "-"%char | "."%char | "i"%char | "n"%char => true
      | _ => false
      end)%bool.

(** The option loop, started by [main] in world [w] on the getopt results
    [rs], ends with the options [o] in world [w1]: the options hold what
    the flags select. *)
Definition parsed_as (rs : list getopt_ret) (w : world)
    (o : list Z) (w1 : world) : Prop :=
  option_loop rs init_options PARAM_ENERGY w = (Next o (wanted_of rs), w1) /\
  opt_get o OPT_VERBOSE = verbose_of rs /\
  opt_get o OPT_SI = si_of rs /\
  opt_get o OPT_PRECISE = precise_of rs /\
  opt_get o OPT_TKOF = tkof_of rs /\
  opt_get o OPT_K = k_of rs /\
  K w1 = custom_of rs (K w) /\
  stdout_of (trace w1) = stdout_of (trace w) /\
  stderr_of (trace w1) = stderr_of (trace w).

(** What [main] does once the operands [p1], [p2] (and the head of [rest]
    in knockout mode) are known to be there. *)
Definition formula_run (rs : list getopt_ret) (p1 p2 : string)
    (rest : list string) (o : list Z) (w1 : world) : world :=
  if tkof_of rs =? 1
  then tkof (atof p1) (atof p2) (atof (hd EmptyString rest)) o w1
  else let '(mass, velocity, energy) :=
         standard_inputs (wanted_of rs) p1 p2 in
       result mass velocity energy (wanted_of rs) o w1.

(** The number that the standard formula computes from the operands. *)
Definition standard_value (K : double) (wanted si : Z) (p1 p2 : string)
  : double :=
  if wanted =? PARAM_ENERGY then get_energy K (atof p1) (atof p2) si
  else if wanted =? PARAM_MASS then get_mass K (atof p1) (atof p2) si
  else get_velocity K (atof p1) (atof p2) si.

(** Mass, velocity and energy as the verbose line shows them. *)
Definition displayed (K : double) (wanted si : Z) (p1 p2 : string)
  : double * double * double :=
  if wanted =? PARAM_ENERGY
  then (atof p1, atof p2, standard_value K wanted si p1 p2)
  else if wanted =? PARAM_MASS
  then (standard_value K wanted si p1 p2, atof p1, atof p2)
  else (atof p1, standard_value K wanted si p1 p2, atof p2).

Definition knockout_value (si : Z) (p1 p2 p3 : string) : double :=
  if si =? 1
  then (atof p1 * atof p2 * atof p3 / 3500)%float
  else (atof p1 * atof p2 * atof p3 / 7000)%float.

(** The verbose line of the standard formula in rounded mode. *)
Definition rounded_line (si : Z) (mass velocity energy : double) : string :=
  if si =? 1
  then cat [fmt_f 2 mass; " g @ "; fmt_f 2 velocity; " m/s = ";
            fmt_f 0 (c_round energy); " J"; LF]
  else cat [fmt_f 0 (c_round mass); " gr @ "; fmt_f 0 (c_round velocity);
            " ft/s = "; fmt_f 0 (c_round energy); " lbf"; LF].

(** ** Doubles as real numbers

    What is needed to bound rounding errors: the real value of a double,
    the position of a real number between two consecutive integers (the
    information that the rounding of binary64 works from), and what it
    means for a result to be correctly rounded. *)

Definition bpow (e : Z) : R := powerRZ 2 e.

Definition located (x : R) (m : Z) (l : location) : Prop :=
  match l with
  | loc_Exact => x = IZR m
  | loc_Inexact Lt => (IZR m < x < IZR m + / 2)%R
  | loc_Inexact Eq => x = (IZR m + / 2)%R
  | loc_Inexact Gt => (IZR m + / 2 < x < IZR m + 1)%R
  end.

(** The real number that a float stands for. *)
Definition SF2R (f : spec_float) : R :=
  match f with
  | S754_finite s m e => (IZR (cond_Zopp s (Zpos m)) * bpow e)%R
  | _ => 0%R
  end.

Definition B2R (x : double) : R := SF2R (Prim2SF x).

(** A positive normal number: finite, and with a full 53-bit mantissa. *)
Definition pos_normal (x : double) : bool :=
  match Prim2SF x with
  | S754_finite false m _ => 2 ^ 52 <=? Zpos m
  | _ => false
  end.

(** The unit roundoff of binary64. *)
Definition u : R := bpow (-53).

(** [z] is a positive number within [u] of the exact value [X],
    relative to itself. *)
Definition rounds_to (X : R) (z : double) : Prop :=
  (0 < B2R z)%R /\ (Rabs (B2R z - X) <= u * B2R z)%R.

(** [X] and [Y] are positive and each is at least [(1 - u)^n] times the
    other: [n] roundings apart. *)
Definition within (n : nat) (X Y : R) : Prop :=
  (0 < X /\ 0 < Y /\ (1 - u) ^ n * Y <= X /\ (1 - u) ^ n * X <= Y)%R.

(** Every double that is computed on the way from [mass] and [velocity]
    to the energy and back to the mass and to the velocity. *)
Definition round_trip_steps (K mass velocity : double) (si : Z)
  : list double :=
  let energy := get_energy K mass velocity si in
  if si =? 1 then
    [(velocity * velocity)%float; (mass / 2)%float;
     (mass / 2 * (velocity * velocity))%float; energy;
     (energy * 2)%float; (energy * 2 / (velocity * velocity))%float;
     get_mass K velocity energy si;
     (energy * 2 / mass)%float; (energy * 2 / mass * K)%float;
     get_velocity K mass energy si]
  else
    [(velocity * velocity)%float; (mass * (velocity * velocity))%float;
     energy;
     (energy / (velocity * velocity))%float; get_mass K velocity energy si;
     (energy / mass)%float; (energy / mass * K)%float;
     get_velocity K mass energy si].

(** ** Further readings of an invocation *)

(** The operands do not suffice: fewer than two, or exactly two when the
    knockout formula is selected. *)
Definition too_few (rs : list getopt_ret) (ops : list string) : bool :=
  (Nat.ltb (List.length ops) 2
   || (Nat.eqb (List.length ops) 2 && (tkof_of rs =? 1)))%bool.

(** The values an options array and [valueWanted] can hold. *)
Definition valid_state (o : list Z) (vw : Z) : Prop :=
  List.length o = TOTAL_OPTIONS /\
  (opt_get o OPT_VERBOSE = 1 \/ opt_get o OPT_VERBOSE = -1) /\
  (opt_get o OPT_SI = 1 \/ opt_get o OPT_SI = -1) /\
  (opt_get o OPT_PRECISE = 1 \/ opt_get o OPT_PRECISE = -1) /\
  (opt_get o OPT_TKOF = 1 \/ opt_get o OPT_TKOF = -1) /\
  (opt_get o OPT_K = -1 \/ opt_get o OPT_K = 0 \/
   opt_get o OPT_K = 1 \/ opt_get o OPT_K = 2) /\
  (vw = PARAM_MASS \/ vw = PARAM_VELOCITY \/ vw = PARAM_ENERGY).




(** The verbose line of the standard formula in exact mode. *)
Definition exact_line (si : Z) (mass velocity energy : double) : string :=
  if si =? 1
  then cat [fmt_f 2 mass; " g @ "; fmt_f 2 velocity; " m/s = ";
            fmt_f 2 energy; " J"; LF]
  else cat [fmt_f 2 mass; " gr @ "; fmt_f 2 velocity; " ft/s = ";
            fmt_f 2 energy; " lbf"; LF].

(** The verbose line of the knockout formula. *)
Definition knockout_line (si precise : Z) (mass velocity diameter ko : double)
  : string :=
  if si =? 1
  then cat [fmt_f 2 mass; " g @ "; fmt_f 2 velocity; " m/s (";
            fmt_f 2 diameter; " mm diameter) = "; fmt_f 2 ko; " TKOF"; LF]
  else if precise =? 1
  then cat [fmt_f 2 mass; " gr @ "; fmt_f 2 velocity; " ft/s (";
            fmt_f 3 diameter; DQUOTE; " diameter) = "; fmt_f 2 ko;
            " TKOF"; LF]
  else cat [fmt_f 0 (c_round mass); " gr @ "; fmt_f 0 (c_round velocity);
            " ft/s ("; fmt_f 3 diameter; DQUOTE; " diameter) = ";
            fmt_f 2 ko; " TKOF"; LF].

(** ** Further readings of the formulas *)

(** Every double computed on the way to the energy, to the mass and to the
    velocity. *)
Definition energy_steps (K mass velocity : double) (si : Z) : list double :=
  if si =? 1
  then [(mass / 2)%float; (velocity * velocity)%float;
        (mass / 2 * (velocity * velocity))%float;
        get_energy K mass velocity si]
  else [(velocity * velocity)%float; (mass * (velocity * velocity))%float;
        get_energy K mass velocity si].

Definition mass_steps (K velocity energy : double) (si : Z) : list double :=
  if si =? 1
  then [(energy * 2)%float; (velocity * velocity)%float;
        (energy * 2 / (velocity * velocity))%float;
        get_mass K velocity energy si]
  else [(velocity * velocity)%float; (energy / (velocity * velocity))%float;
        get_mass K velocity energy si].

Definition velocity_steps (K mass energy : double) (si : Z) : list double :=
  if si =? 1
  then [(energy * 2)%float; (energy * 2 / mass)%float;
        (energy * 2 / mass * K)%float; get_velocity K mass energy si]
  else [(energy / mass)%float; (energy / mass * K)%float;
        get_velocity K mass energy si].

(** The score that [tkof] computes, on doubles and in exact arithmetic. *)
Definition knockout (si : Z) (mass velocity diameter : double) : double :=
  if si =? 1
  then (mass * velocity * diameter / 3500)%float
  else (mass * velocity * diameter / 7000)%float.

Definition exact_knockout (si : Z) (mass velocity diameter : R) : R :=
  if si =? 1
  then (mass * velocity * diameter / 3500)%R
  else (mass * velocity * diameter / 7000)%R.

Definition knockout_steps (si : Z) (mass velocity diameter : double)
  : list double :=
  [(mass * velocity)%float; (mass * velocity * diameter)%float;
   knockout si mass velocity diameter].

(** Every double computed on the way from the energy to the mass and back
    to the energy, and from the energy to the velocity and back. *)
Definition energy_back_steps (K mass velocity energy : double) (si : Z)
  : list double :=
  (mass_steps K velocity energy si ++
   energy_steps K (get_mass K velocity energy si) velocity si ++
   velocity_steps K mass energy si ++
   energy_steps K mass (get_velocity K mass energy si) si)%list.

(** ** Texts *)

(** [needle] occurs somewhere in [hay]. *)
Fixpoint occurs_in (needle hay : string) : bool :=
  match hay with
  | EmptyString => String.prefix needle EmptyString
  | String _ hay' => (String.prefix needle hay || occurs_in needle hay')%bool
  end.

(** The number of newline characters of a text. *)
Fixpoint newlines (s : string) : nat :=
  match s with
  | EmptyString => 0
  | String c s' => ((if Ascii.eqb c (ascii_of_nat 10) then 1 else 0)
                    + newlines s')%nat
  end.

(** A text that is one line: no newline but the one that ends it. *)
Definition one_line (s : string) : Prop :=
  exists line, s = line ++ LF /\ newlines line = 0%nat.

(** * Properties *)

(** ** Streams *)

Lemma string_app_assoc (a b c : string) : (a ++ b) ++ c = a ++ (b ++ c).
Proof.
  induction a as [|x a IH]; simpl; [reflexivity | now rewrite IH].
Qed.

Lemma string_app_nil_r (a : string) : a ++ EmptyString = a.
Proof.
  induction a as [|x a IH]; simpl; [reflexivity | now rewrite IH].
Qed.

Lemma stdout_of_app (t u : list event) :
  stdout_of (t ++ u) = stdout_of t ++ stdout_of u.
Proof.
  induction t as [|[s|s|r] t IH]; simpl; auto.
  now rewrite IH, string_app_assoc.
Qed.

Lemma stderr_of_app (t u : list event) :
  stderr_of (t ++ u) = stderr_of t ++ stderr_of u.
Proof.
  induction t as [|[s|s|r] t IH]; simpl; auto.
  now rewrite IH, string_app_assoc.
Qed.

Lemma writes_emit (e : event) : writes (emit e) [e].
Proof. intro w; reflexivity. Qed.

Lemma writes_fprintf (fp : FILE) (s : string) :
  writes (fprintf fp s)
         [match fp with stdout => Stdout s | stderr => Stderr s end].
Proof. destruct fp; intro w; reflexivity. Qed.

Lemma writes_printf (s : string) : writes (printf s) [Stdout s].
Proof. intro w; reflexivity. Qed.

Lemma writes_skip : writes skip [].
Proof. intro w; unfold skip; destruct w; simpl; now rewrite app_nil_r. Qed.

Lemma writes_seq (p q : proc) (t u : list event) :
  writes p t -> writes q u -> writes (p ;; q) (t ++ u)%list.
Proof.
  intros Hp Hq w; unfold seq.
  rewrite Hp, Hq; simpl. now rewrite app_assoc.
Qed.

Lemma writes_initial (p : proc) (t : list event) :
  writes p t -> t = trace (p initial_world).
Proof. intro H; rewrite H; reflexivity. Qed.

Lemma writes_canon (p : proc) :
  (exists t, writes p t) -> writes p (trace (p initial_world)).
Proof.
  intros [t H]. now rewrite <- (writes_initial p t H).
Qed.

Ltac writes_steps :=
  lazymatch goal with
  | |- writes (_ ;; _) _ => apply writes_seq; writes_steps
  | |- writes (printf _) _ => apply writes_printf
  | |- writes (putchar _) _ => apply writes_printf
  | |- writes (fprintf _ _) _ => apply writes_fprintf
  | |- writes (emit _) _ => apply writes_emit
  | |- writes skip _ => apply writes_skip
  end.

Lemma print_usage_writes (fp : FILE) :
  writes (print_usage fp) (trace (print_usage fp initial_world)).
Proof. apply writes_canon; eexists; unfold print_usage; writes_steps. Qed.

Lemma print_help_writes :
  writes print_help (trace (print_help initial_world)).
Proof.
  apply writes_canon; eexists; unfold print_help, print_usage, putchar.
  writes_steps.
Qed.

Lemma print_version_writes :
  writes print_version (trace (print_version initial_world)).
Proof. apply writes_canon; eexists; unfold print_version; writes_steps. Qed.

Lemma print_additional_help_writes :
  writes print_additional_help (trace (print_additional_help initial_world)).
Proof.
  apply writes_canon; eexists; unfold print_additional_help; writes_steps.
Qed.

Lemma print_examples_writes :
  writes print_examples (trace (print_examples initial_world)).
Proof. apply writes_canon; eexists; unfold print_examples; writes_steps. Qed.

Lemma info_text_writes (c : ascii) :
  writes (info_text c) (trace (info_text c initial_world)).
Proof.
  apply writes_canon.
  destruct (informational c) eqn:Hc.
  - destruct c as [[] [] [] [] [] [] [] []]; try discriminate Hc; eexists;
      cbv beta iota delta [info_text];
      lazymatch goal with
      | |- writes print_help _ => apply print_help_writes
      | |- writes print_version _ => apply print_version_writes
      | |- writes print_additional_help _ => apply print_additional_help_writes
      | |- writes print_examples _ => apply print_examples_writes
      end.
  - exists [].
    destruct c as [[] [] [] [] [] [] [] []]; try discriminate Hc;
      apply writes_skip.
Qed.

(** ** The option loop *)

Lemma length5 (o : list Z) :
  List.length o = 5%nat -> exists a b c d e, o = [a; b; c; d; e].
Proof.
  destruct o as [|a [|b [|c [|d [|e [|f o]]]]]]; try discriminate.
  intros _; now exists a, b, c, d, e.
Qed.

Lemma after_flags_nil (o : list Z) (vw : Z) (w : world) :
  List.length o = 5%nat -> after_flags [] o vw w o vw w.
Proof. intro H; unfold after_flags; simpl; tauto. Qed.

Lemma switch_opt_next (c : ascii) (a : option string)
    (o : list Z) (vw : Z) (w : world) :
  List.length o = 5%nat -> informational c = false ->
  exists o' vw' w',
    switch_opt c a o vw w = (Next o' vw', w') /\
    after_flags [Found c a] o vw w o' vw' w'.
Proof.
  intros Ho Hc. destruct (length5 o Ho) as (x1 & x2 & x3 & x4 & x5 & ->).
  destruct c as [[] [] [] [] [] [] [] []]; try discriminate Hc;
    do 3 eexists; (split; [reflexivity | unfold after_flags; simpl; tauto]).
Qed.

Lemma getopt_step_next (r : getopt_ret) (o : list Z) (vw : Z) (w : world) :
  List.length o = 5%nat -> is_info r = false ->
  exists o' vw' w',
    getopt_step r o vw w = (Next o' vw', w') /\
    after_flags [r] o vw w o' vw' w'.
Proof.
  intros Ho Hr. destruct r as [c a|c|c].
  - now apply switch_opt_next.
  - exists o, vw, (emit (GetoptDiag (Unknown c)) w); split; [reflexivity|].
    unfold after_flags; simpl.
    rewrite stdout_of_app, stderr_of_app; simpl.
    now rewrite !string_app_nil_r.
  - exists o, vw, (emit (GetoptDiag (Missing c)) w); split; [reflexivity|].
    unfold after_flags; simpl.
    rewrite stdout_of_app, stderr_of_app; simpl.
    now rewrite !string_app_nil_r.
Qed.

Lemma first_info_cons_none (r : getopt_ret) (rs : list getopt_ret) :
  first_info (r :: rs) = None -> is_info r = false /\ first_info rs = None.
Proof.
  destruct r as [c a|c|c]; simpl; auto.
  destruct (informational c); [discriminate | auto].
Qed.

Lemma after_flags_cons (r : getopt_ret) (rs : list getopt_ret)
    (o : list Z) (vw : Z) (w : world) (o1 : list Z) (vw1 : Z) (w1 : world)
    (o2 : list Z) (vw2 : Z) (w2 : world) :
  after_flags [r] o vw w o1 vw1 w1 ->
  after_flags rs o1 vw1 w1 o2 vw2 w2 ->
  after_flags (r :: rs) o vw w o2 vw2 w2.
Proof.
  unfold after_flags; simpl.
  intros (_ & A1 & A2 & A3 & A4 & A5 & A6 & A7 & A8 & A9)
         (L & B1 & B2 & B3 & B4 & B5 & B6 & B7 & B8 & B9).
  rewrite <- A1, <- A2, <- A3, <- A4, <- A5, <- A6, <- A7, <- A8, <- A9.
  tauto.
Qed.

(** Without an informational flag the loop runs to its end. *)
Lemma option_loop_next (rs : list getopt_ret) :
  forall (o : list Z) (vw : Z) (w : world),
    List.length o = 5%nat -> first_info rs = None ->
    exists o' vw' w',
      option_loop rs o vw w = (Next o' vw', w') /\
      after_flags rs o vw w o' vw' w'.
Proof.
  induction rs as [|r rs IH]; intros o vw w Ho Hn.
  - exists o, vw, w; split; [reflexivity | now apply after_flags_nil].
  - apply first_info_cons_none in Hn as [Hr Hn].
    destruct (getopt_step_next r o vw w Ho Hr) as (o1 & vw1 & w1 & E1 & A1).
    assert (Ho1 : List.length o1 = 5%nat) by apply A1.
    destruct (IH o1 vw1 w1 Ho1 Hn) as (o2 & vw2 & w2 & E2 & A2).
    exists o2, vw2, w2; split.
    + simpl; now rewrite E1.
    + eapply after_flags_cons; eassumption.
Qed.

Lemma switch_opt_info (c : ascii) (a : option string)
    (o : list Z) (vw : Z) (w : world) :
  informational c = true ->
  switch_opt c a o vw w = (Return 0, info_text c w).
Proof.
  intro Hc.
  destruct c as [[] [] [] [] [] [] [] []]; try discriminate Hc; reflexivity.
Qed.

(** With one, [main] returns 0 from inside the loop, after the text of
    the first informational flag. *)
Lemma option_loop_info (rs : list getopt_ret) :
  forall (o : list Z) (vw : Z) (w : world) (c : ascii),
    List.length o = 5%nat -> first_info rs = Some c ->
    exists w1,
      option_loop rs o vw w = (Return 0, info_text c w1) /\
      informational c = true /\
      stdout_of (trace w1) = stdout_of (trace w) /\
      stderr_of (trace w1) = stderr_of (trace w).
Proof.
  induction rs as [|r rs IH]; intros o vw w c Ho Hf; [discriminate|].
  destruct (is_info r) eqn:Hr.
  - destruct r as [d a|d|d]; try discriminate Hr.
    simpl in Hr, Hf. rewrite Hr in Hf. injection Hf as <-.
    exists w. simpl. rewrite (switch_opt_info d a o vw w Hr). auto.
  - assert (Hf' : first_info rs = Some c).
    { destruct r as [d a|d|d]; simpl in Hr, Hf; try assumption.
      now rewrite Hr in Hf. }
    destruct (getopt_step_next r o vw w Ho Hr) as (o1 & vw1 & w1 & E1 & A1).
    assert (Ho1 : List.length o1 = 5%nat) by apply A1.
    destruct (IH o1 vw1 w1 c Ho1 Hf') as (w2 & E2 & Hc & S1 & S2).
    exists w2. simpl. rewrite E1.
    destruct A1 as (_ & _ & _ & _ & _ & _ & _ & _ & T1 & T2).
    simpl in T1, T2. rewrite <- T1, <- T2. auto.
Qed.

(** ** main *)

Lemma init_options_length : List.length init_options = 5%nat.
Proof. reflexivity. Qed.

(** Past the [argc < 2] test, [main] is the option loop followed by [run]. *)
Lemma main_unfold (posix : bool) (a b : string) (rest : list string)
    (w : world) :
  main posix (a :: b :: rest) w =
    match option_loop (fst (getopt_scan posix (b :: rest)))
                      init_options PARAM_ENERGY w with
    | (Return code, w') => (code, w')
    | (Next options valueWanted, w') =>
        run options valueWanted (snd (getopt_scan posix (b :: rest))) w'
    end.
Proof.
  unfold main.
  replace (Z.of_nat (List.length (a :: b :: rest)) <? 2) with false
    by (symmetry; apply Z.ltb_ge; simpl List.length; lia).
  cbn [tl]. now destruct (getopt_scan posix (b :: rest)) as [rs ops].
Qed.

(** C6. Whenever getopt returns an informational flag (-h, -V, -H or -E),
    main returns 0 having written to the standard output exactly the text
    of the first such flag and nothing of its own to the error stream,
    whatever other flags and operands the command line holds. *)
Theorem informational_flag_short_circuits
    (posix : bool) (argv : list string) (w : world) (c : ascii) :
  first_info (fst (getopt_scan posix (tl argv))) = Some c ->
  informational c = true /\
  fst (main posix argv w) = 0 /\
  stdout_of (trace (snd (main posix argv w))) =
    stdout_of (trace w) ++ stdout_of (trace (info_text c initial_world)) /\
  stderr_of (trace (snd (main posix argv w))) = stderr_of (trace w).
Proof.
  intro Hf.
  destruct argv as [|a [|b rest]]; try discriminate Hf.
  rewrite main_unfold. cbn [tl] in Hf.
  destruct (option_loop_info _ init_options PARAM_ENERGY w c
              init_options_length Hf) as (w1 & E & Hc & S1 & S2).
  rewrite E. cbn [fst snd].
  rewrite (info_text_writes c w1). cbn [trace].
  rewrite stdout_of_app, stderr_of_app, S1, S2.
  repeat split; auto.
  replace (stderr_of (trace (info_text c initial_world))) with EmptyString.
  - apply string_app_nil_r.
  - destruct c as [[] [] [] [] [] [] [] []]; try discriminate Hc; reflexivity.
Qed.

Lemma informational_flag_short_circuits_witness :
  let argv := ["muzz"; "-s"; "-x"; "-qV"; "230"; "-h"] in
  first_info (fst (getopt_scan false (tl argv))) = Some "V"%char /\
  fst (main false argv initial_world) = 0 /\
  stdout_of (trace (snd (main false argv initial_world))) =
    cat ["muzz.c, version 1.01"; LF;
         "James Hendrie <hendrie.james@gmail.com>"; LF].
Proof.
  split; [reflexivity|].
  pose proof (informational_flag_short_circuits false
                ["muzz"; "-s"; "-x"; "-qV"; "230"; "-h"] initial_world
                "V"%char eq_refl) as (_ & H0 & H1 & _).
  split; [exact H0 | exact H1].
Defined.

(** ** After the option loop *)

Ltac decide_argc :=
  repeat match goal with
  | |- context [?a >? ?b] =>
      rewrite (Z.gtb_ltb a b)
  | |- context [?a <? ?b] =>
      destruct (Z.ltb_spec a b); [| simpl List.length in *; lia ]
  | |- context [?a <? ?b] =>
      destruct (Z.ltb_spec a b); [ simpl List.length in *; lia |]
  | |- context [?a <=? ?b] =>
      destruct (Z.leb_spec a b); [| simpl List.length in *; lia ]
  | |- context [?a <=? ?b] =>
      destruct (Z.leb_spec a b); [ simpl List.length in *; lia |]
  | |- context [?a =? ?b] =>
      destruct (Z.eqb_spec a b); [| simpl List.length in *; lia ]
  | |- context [?a =? ?b] =>
      destruct (Z.eqb_spec a b); [ simpl List.length in *; lia |]
  end.

Ltac by_writes :=
  lazymatch goal with
  | |- ?p ?w = _ =>
      let H := fresh in
      assert (H : writes p (trace (p initial_world)))
        by (apply writes_canon; eexists; unfold print_usage, view_help;
            writes_steps);
      exact (H w)
  end.

Lemma run_no_operand (o : list Z) (vw : Z) (w : world) :
  run o vw [] w =
    (1, {| K := K w;
           trace := (trace w ++
                     usage_error [cat ["ERROR:  Parameters required"; LF]])%list |}).
Proof.
  unfold run. cbn [List.length Z.of_nat]. change (1 + 0 >? 1) with false.
  cbv iota. f_equal. by_writes.
Qed.

Lemma run_one_operand (o : list Z) (vw : Z) (p : string) (w : world) :
  run o vw [p] w =
    (1, {| K := K w;
           trace := (trace w ++
                     usage_error
                       [cat ["ERROR:  Need more than one parameter"; LF]])%list |}).
Proof.
  unfold run. cbn [List.length]. change (1 + Z.of_nat 1 >? 1) with true.
  change (1 + Z.of_nat 1 =? 2) with true.
  cbv iota. f_equal. by_writes.
Qed.

Lemma run_knockout_two_operands (o : list Z) (vw : Z) (p1 p2 : string)
    (w : world) :
  opt_get o OPT_TKOF = 1 ->
  run o vw [p1; p2] w =
    (1, {| K := K w;
           trace := (trace w ++
                     usage_error
                       ["ERROR:  The Taylor Knockout Formula requires ";
                        cat ["three paramters:"; LF];
                        cat ["Mass, Velocity and Diameter of projectile"; LF]])%list |}).
Proof.
  intro Ht. unfold run. rewrite Ht. cbn [List.length].
  change (1 + Z.of_nat 2 >? 1) with true.
  change (1 + Z.of_nat 2 =? 2) with false.
  change (1 + Z.of_nat 2 <=? 3) with true.
  change (1 =? 1) with true.
  cbv iota. f_equal. by_writes.
Qed.

Lemma run_knockout (o : list Z) (vw : Z) (p1 p2 p3 : string)
    (rest : list string) (w : world) :
  opt_get o OPT_TKOF = 1 ->
  run o vw (p1 :: p2 :: p3 :: rest) w =
    (0, tkof (atof p1) (atof p2) (atof p3) o w).
Proof.
  intro Ht. unfold run. rewrite Ht.
  cbn [nth Nat.sub]. change (1 =? 1) with true. change (1 =? -1) with false.
  cbv iota. decide_argc. reflexivity.
Qed.

Lemma run_standard (o : list Z) (vw : Z) (p1 p2 : string)
    (rest : list string) (w : world) :
  opt_get o OPT_TKOF = -1 ->
  run o vw (p1 :: p2 :: rest) w =
    (0, let '(mass, velocity, energy) := standard_inputs vw p1 p2 in
        result mass velocity energy vw o w).
Proof.
  intro Ht. unfold run, standard_inputs. rewrite Ht.
  cbn [nth Nat.sub]. change (-1 =? 1) with false. change (-1 =? -1) with true.
  cbv iota. decide_argc.
  destruct (vw =? PARAM_ENERGY); [reflexivity|].
  destruct (vw =? PARAM_MASS); [reflexivity|].
  destruct (vw =? PARAM_VELOCITY); reflexivity.
Qed.

(** ** The presenter writes to the standard output only *)

Lemma verbose_result_writes (mass velocity energy : double) (o : list Z) :
  exists t, writes (verbose_result mass velocity energy o) t /\
            stderr_of t = EmptyString.
Proof.
  unfold verbose_result.
  destruct (opt_get o OPT_VERBOSE =? 1), (opt_get o OPT_SI =? 1),
           (opt_get o OPT_PRECISE =? 1);
    eexists; (split; [writes_steps | reflexivity]).
Qed.

Lemma tkof_writes (mass velocity diameter : double) (o : list Z) :
  exists t, writes (tkof mass velocity diameter o) t /\ stderr_of t = EmptyString.
Proof.
  unfold tkof.
  destruct (opt_get o OPT_VERBOSE =? 1), (opt_get o OPT_SI =? 1),
           (opt_get o OPT_PRECISE =? 1);
    eexists; (split; [writes_steps | reflexivity]).
Qed.

(** ** Flags that select the target quantity *)

Lemma getopt_step_target (r : getopt_ret) (o : list Z) (vw : Z) (w : world) :
  is_target r = true ->
  exists vw', getopt_step r o vw w = (Next o vw', w).
Proof.
  destruct r as [c a|c|c]; try discriminate.
  destruct c as [[] [] [] [] [] [] [] []]; try discriminate;
    intros _; eexists; reflexivity.
Qed.

Lemma getopt_step_not_target (r : getopt_ret) (o : list Z) (vw vw0 : Z)
    (w : world) (o' : list Z) (vw' : Z) (w' : world) :
  is_target r = false ->
  getopt_step r o vw w = (Next o' vw', w') ->
  vw' = vw /\ getopt_step r o vw0 w = (Next o' vw0, w').
Proof.
  destruct r as [c a|c|c]; simpl.
  - destruct c as [[] [] [] [] [] [] [] []]; try discriminate;
      intros _ E; cbn in E |- *; try discriminate E;
      injection E as <- <- <-; auto.
  - intros _ E; injection E as <- <- <-; auto.
  - intros _ E; injection E as <- <- <-; auto.
Qed.

(** Dropping the flags -m, -v and -e changes neither the options nor the
    world the loop ends with. *)
Lemma option_loop_without_targets (rs : list getopt_ret) :
  forall (o : list Z) (vw vw0 : Z) (w : world)
         (o' : list Z) (vw' : Z) (w' : world),
    option_loop rs o vw w = (Next o' vw', w') ->
    option_loop (filter not_target rs) o vw0 w = (Next o' vw0, w').
Proof.
  induction rs as [|r rs IH]; intros o vw vw0 w o' vw' w' E.
  - simpl in E |- *. now injection E as <- _ <-.
  - simpl in E. unfold not_target at 1. cbn [filter].
    destruct (is_target r) eqn:Hr; cbn [negb].
    + destruct (getopt_step_target r o vw w Hr) as (vw1 & E1).
      rewrite E1 in E. eapply IH; eassumption.
    + destruct (getopt_step r o vw w) as [[code|o1 vw1] w1] eqn:E1;
        [discriminate E|].
      destruct (getopt_step_not_target r o vw vw0 w o1 vw1 w1 Hr E1)
        as (-> & E2).
      cbn [option_loop]. rewrite E2. eapply IH; eassumption.
Qed.

(** C10. When -t is given and at least three operands follow, main runs
    the knockout formula on the first three operands (mass, velocity,
    diameter) and returns 0: the options and the world handed to [tkof] are
    those of the same command line without its -m, -v and -e flags, [result]
    is not called and [K] is left as the option loop left it. *)
Theorem knockout_ignores_target
    (posix : bool) (argv : list string) (w : world)
    (p1 p2 p3 : string) (rest : list string) :
  snd (getopt_scan posix (tl argv)) = p1 :: p2 :: p3 :: rest ->
  first_info (fst (getopt_scan posix (tl argv))) = None ->
  tkof_of (fst (getopt_scan posix (tl argv))) = 1 ->
  exists (options : list Z) (w1 : world),
    option_loop (filter not_target (fst (getopt_scan posix (tl argv))))
                init_options PARAM_ENERGY w
      = (Next options PARAM_ENERGY, w1) /\
    main posix argv w = (0, tkof (atof p1) (atof p2) (atof p3) options w1) /\
    K (snd (main posix argv w)) = K w1.
Proof.
  intros Hops Hinfo Ht.
  destruct argv as [|a [|b args]]; try discriminate Hops.
  cbn [tl] in *.
  destruct (option_loop_next _ init_options PARAM_ENERGY w
              init_options_length Hinfo) as (o & vw & w1 & E & A).
  exists o, w1. split; [| split].
  - eapply option_loop_without_targets; eassumption.
  - rewrite main_unfold, E, Hops. apply run_knockout.
    destruct A as (_ & _ & _ & _ & A4 & _). rewrite A4. exact Ht.
  - rewrite main_unfold, E, Hops, run_knockout.
    + cbn [snd].
      destruct (tkof_writes (atof p1) (atof p2) (atof p3) o) as (t & Wt & _).
      now rewrite Wt.
    + destruct A as (_ & _ & _ & _ & A4 & _). rewrite A4. exact Ht.
Qed.

Lemma knockout_ignores_target_witness :
  let argv := ["muzz"; "-m"; "-t"; "-v"; "230"; "860"; ".45"; "7"] in
  exists (options : list Z) (w1 : world),
    option_loop [Found "t"%char None] init_options PARAM_ENERGY initial_world
      = (Next options PARAM_ENERGY, w1) /\
    main false argv initial_world
      = (0, tkof (atof "230") (atof "860") (atof ".45") options w1) /\
    K (snd (main false argv initial_world)) = K w1.
Proof.
  exact (knockout_ignores_target false
           ["muzz"; "-m"; "-t"; "-v"; "230"; "860"; ".45"; "7"]
           initial_world "230" "860" ".45" ["7"] eq_refl eq_refl eq_refl).
Defined.

(** ** Argument counts *)

Lemma tkof_of_cases (rs : list getopt_ret) (d : Z) :
  last_wins pick_tkof rs d = d \/ last_wins pick_tkof rs d = 1.
Proof.
  revert d; induction rs as [|r rs IH]; intro d; simpl; auto.
  destruct (pick_tkof r) as [x|] eqn:E; simpl; auto.
  assert (x = 1) as ->.
  { destruct r as [c a|c|c]; try discriminate E. simpl in E.
    destruct c as [[] [] [] [] [] [] [] []]; try discriminate E.
    now injection E. }
  destruct (IH 1); auto.
Qed.

Lemma main_too_few (posix : bool) (argv : list string) (w : world) :
  (List.length argv < 2)%nat ->
  main posix argv w =
    (1, {| K := K w;
           trace := (trace w ++
                     usage_error [cat ["ERROR:  Too few arguments"; LF]])%list |}).
Proof.
  intro H. unfold main.
  replace (Z.of_nat (List.length argv) <? 2) with true
    by (symmetry; apply Z.ltb_lt; lia).
  f_equal. by_writes.
Qed.

(** C5 (amended). Without an informational flag, main fails with exit
    code 1, writes nothing to the standard output and writes to the error
    stream a message, the usage line and the pointer to -h, when:
    no argument at all is given ("Too few arguments"); flags but no operand
    are given ("Parameters required"); exactly one operand is given, in
    knockout mode too ("Need more than one parameter"); or exactly two
    operands are given in knockout mode (the message naming Mass, Velocity
    and Diameter). *)
Theorem argument_count_errors
    (posix : bool) (argv : list string) (w : world) :
  let rs := fst (getopt_scan posix (tl argv)) in
  let ops := snd (getopt_scan posix (tl argv)) in
  first_info rs = None ->
  (List.length ops < 2)%nat \/ (List.length ops = 2%nat /\ tkof_of rs = 1) ->
  fst (main posix argv w) = 1 /\
  stdout_of (trace (snd (main posix argv w))) = stdout_of (trace w) /\
  stderr_of (trace (snd (main posix argv w))) =
    stderr_of (trace w) ++
    stderr_of (usage_error (count_error (List.length argv) (List.length ops))).
Proof.
  intros rs ops Hinfo Hcount. subst rs ops.
  destruct argv as [|a [|b args]].
  - rewrite main_too_few by (simpl; lia). cbn [fst snd trace].
    rewrite stdout_of_app, stderr_of_app.
    repeat split; auto. apply string_app_nil_r.
  - rewrite main_too_few by (simpl; lia). cbn [fst snd trace].
    rewrite stdout_of_app, stderr_of_app.
    repeat split; auto. apply string_app_nil_r.
  - cbn [tl] in *. rewrite main_unfold.
    destruct (option_loop_next _ init_options PARAM_ENERGY w
                init_options_length Hinfo) as (o & vw & w1 & E & A).
    rewrite E.
    destruct A as (_ & _ & _ & _ & A4 & _ & _ & _ & S1 & S2).
    change (opt_get init_options OPT_TKOF) with (-1) in A4.
    fold (tkof_of (fst (getopt_scan posix (b :: args)))) in A4.
    destruct (snd (getopt_scan posix (b :: args))) as [|p1 [|p2 [|p3 ops]]].
    + rewrite run_no_operand. cbn [fst snd trace List.length].
      rewrite stdout_of_app, stderr_of_app, S1, S2.
      repeat split; auto. apply string_app_nil_r.
    + rewrite run_one_operand. cbn [fst snd trace List.length].
      rewrite stdout_of_app, stderr_of_app, S1, S2.
      repeat split; auto. apply string_app_nil_r.
    + destruct Hcount as [Hc | [_ Ht]]; [simpl in Hc; lia|].
      rewrite Ht in A4. rewrite (run_knockout_two_operands _ _ _ _ _ A4).
      cbn [fst snd trace List.length].
      rewrite stdout_of_app, stderr_of_app, S1, S2.
      repeat split; auto. apply string_app_nil_r.
    + destruct Hcount as [Hc | [Hc _]]; simpl in Hc; lia.
Qed.

Lemma argument_count_errors_witness :
  let argv := ["muzz"; "-s"; "-t"; "15"; "255"] in
  fst (main false argv initial_world) = 1 /\
  stdout_of (trace (snd (main false argv initial_world))) = EmptyString /\
  stderr_of (trace (snd (main false argv initial_world))) =
    cat ["ERROR:  The Taylor Knockout Formula requires three paramters:"; LF;
         "Mass, Velocity and Diameter of projectile"; LF;
         "Usage:  muzz [OPTION] MASS VELOCITY [DIAMETER]"; LF;
         LF; "To view help, run with -h argument."; LF].
Proof.
  exact (argument_count_errors false ["muzz"; "-s"; "-t"; "15"; "255"]
           initial_world eq_refl (or_intror (conj eq_refl eq_refl))).
Defined.

(** C5, as stated, fails: with no argument at all the message is "Too few
    arguments", not "Parameters required"; knockout mode with a single
    operand reports "Need more than one parameter", not the message that
    names mass, velocity and diameter; and with an informational flag and
    no operand main returns 0. *)
Lemma argument_count_claim_counterexample :
  fst (main false ["muzz"; "-V"] initial_world) = 0 /\
  main false ["muzz"] initial_world =
    (1, {| K := zero;
           trace := [Stderr (cat ["ERROR:  Too few arguments"; LF]);
                     Stderr (cat ["Usage:  muzz [OPTION] MASS VELOCITY [DIAMETER]"; LF]);
                     Stderr (cat [LF; "To view help, run with -h argument."; LF])] |})
  /\
  main false ["muzz"; "-t"; "230"] initial_world =
    (1, {| K := zero;
           trace := [Stderr (cat ["ERROR:  Need more than one parameter"; LF]);
                     Stderr (cat ["Usage:  muzz [OPTION] MASS VELOCITY [DIAMETER]"; LF]);
                     Stderr (cat [LF; "To view help, run with -h argument."; LF])] |}).
Proof. repeat split; reflexivity. Qed.

(** ** The constant and the result *)

Lemma resolve_K_spec (o : list Z) (w : world) :
  resolve_K o w =
    {| K := expected_K (opt_get o OPT_K) (opt_get o OPT_SI) (K w);
       trace := trace w |}.
Proof.
  unfold resolve_K, expected_K, seq, set_K, skip.
  destruct (opt_get o OPT_K =? 0) eqn:E0.
  - apply Z.eqb_eq in E0. rewrite E0. simpl.
    rewrite Bool.andb_false_r. now destruct w.
  - destruct (opt_get o OPT_SI =? 1) eqn:E1; simpl;
      destruct (opt_get o OPT_K =? -1); simpl; try reflexivity;
      destruct (opt_get o OPT_K =? 1); simpl; try reflexivity;
      destruct (opt_get o OPT_K =? 2); simpl; try reflexivity;
      now destruct w.
Qed.

(** [result] resolves [K], then only writes to the standard output. *)
Lemma result_writes (mass velocity energy : double) (param : Z)
    (o : list Z) (w : world) :
  exists t,
    result mass velocity energy param o w =
      {| K := K (resolve_K o w); trace := (trace w ++ t)%list |} /\
    stderr_of t = EmptyString.
Proof.
  unfold result. rewrite resolve_K_spec. cbn [K trace].
  set (w1 := {| K := _; trace := trace w |}).
  assert (Hs : exists r t,
             solve mass velocity energy param o w1 =
               (r, {| K := K w1; trace := (trace w1 ++ t)%list |}) /\
             stderr_of t = EmptyString).
  { unfold solve.
    destruct (param =? PARAM_ENERGY);
      [| destruct (param =? PARAM_MASS);
         [| destruct (param =? PARAM_VELOCITY)]].
    - destruct (verbose_result_writes mass velocity
                  (get_energy (K w1) mass velocity (opt_get o OPT_SI)) o)
        as (t & Wt & St).
      do 2 eexists; split; [rewrite Wt; reflexivity | exact St].
    - destruct (verbose_result_writes
                  (get_mass (K w1) velocity energy (opt_get o OPT_SI))
                  velocity energy o) as (t & Wt & St).
      do 2 eexists; split; [rewrite Wt; reflexivity | exact St].
    - destruct (verbose_result_writes mass
                  (get_velocity (K w1) mass energy (opt_get o OPT_SI))
                  energy o) as (t & Wt & St).
      do 2 eexists; split; [rewrite Wt; reflexivity | exact St].
    - exists (-1)%float, []. split; [|reflexivity].
      unfold w1; cbn [K trace]. now rewrite app_nil_r. }
  destruct Hs as (r & t & Es & St). rewrite Es.
  unfold w1; cbn [K trace].
  destruct (opt_get o OPT_VERBOSE =? 1); cbn [negb].
  - exists t. split; [reflexivity | exact St].
  - destruct (opt_get o OPT_PRECISE =? 1).
    + exists (t ++ [Stdout (cat [fmt_f 2 r; LF])])%list. split.
      * unfold printf, fprintf, emit; cbn [K trace]. now rewrite app_assoc.
      * now rewrite stderr_of_app, St.
    + exists (t ++ [Stdout (cat [fmt_f 0 r; LF])])%list. split.
      * unfold printf, fprintf, emit; cbn [K trace]. now rewrite app_assoc.
      * now rewrite stderr_of_app, St.
Qed.

(** ** Invocations that reach a formula *)

Lemma option_loop_parsed (rs : list getopt_ret) (w : world) :
  first_info rs = None -> exists o w1, parsed_as rs w o w1.
Proof.
  intro Hinfo.
  destruct (option_loop_next rs init_options PARAM_ENERGY w
              init_options_length Hinfo) as (o & vw & w1 & E & A).
  destruct A as (_ & A1 & A2 & A3 & A4 & A5 & A6 & A7 & S1 & S2).
  exists o, w1. unfold parsed_as. subst vw.
  repeat split; assumption.
Qed.

Lemma main_formula_run (posix : bool) (argv : list string) (w : world)
    (p1 p2 : string) (rest : list string) (o : list Z) (w1 : world) :
  snd (getopt_scan posix (tl argv)) = p1 :: p2 :: rest ->
  (tkof_of (fst (getopt_scan posix (tl argv))) = 1 -> rest <> []) ->
  parsed_as (fst (getopt_scan posix (tl argv))) w o w1 ->
  main posix argv w =
    (0, formula_run (fst (getopt_scan posix (tl argv))) p1 p2 rest o w1).
Proof.
  intros Hops Hrest (E & _ & _ & _ & A4 & _).
  destruct argv as [|a [|b args]]; try discriminate Hops.
  cbn [tl] in *. rewrite main_unfold, E, Hops. unfold formula_run.
  destruct (tkof_of_cases (fst (getopt_scan posix (b :: args))) (-1))
    as [Ht | Ht]; fold (tkof_of (fst (getopt_scan posix (b :: args)))) in Ht;
    rewrite Ht in *.
  - now apply run_standard.
  - destruct rest as [|p3 rest]; [now elim Hrest|].
    now apply run_knockout.
Qed.

Lemma formula_run_writes (rs : list getopt_ret) (p1 p2 : string)
    (rest : list string) (o : list Z) (w1 : world) :
  exists t,
    trace (formula_run rs p1 p2 rest o w1) = (trace w1 ++ t)%list /\
    stderr_of t = EmptyString.
Proof.
  unfold formula_run. destruct (tkof_of rs =? 1).
  - destruct (tkof_writes (atof p1) (atof p2) (atof (hd EmptyString rest)) o)
      as (t & Wt & St).
    exists t. now rewrite Wt.
  - destruct (standard_inputs (wanted_of rs) p1 p2) as [[m v] e].
    destruct (result_writes m v e (wanted_of rs) o w1) as (t & Wt & St).
    exists t. now rewrite Wt.
Qed.

(** ** Operands that are not numbers *)

(** A text whose first character cannot start a number is not converted. *)
Lemma strtod_not_numeric (c : ascii) (s : string) :
  starts_numeric c = false -> strtod (String c s) = None.
Proof.
  intro H.
  destruct c as [[] [] [] [] [] [] [] []]; try discriminate H; reflexivity.
Qed.

Lemma atof_no_conversion (s : string) : strtod s = None -> atof s = zero.
Proof. intro H; unfold atof; now rewrite H. Qed.

(** C1 (amended). Whatever the text of the operands, main raises no error
    for them: with no informational flag and enough operands (two, three in
    knockout mode) it returns 0, writes nothing of its own to the error
    stream and runs the formula on the values that atof gives for the
    operands.  That value is 0.0, not the sentinel -1, for an operand that
    atof cannot convert, as is every text whose first character is not
    white space, a sign, a digit, a dot or the letter i or n. *)
Theorem operands_are_read_by_atof
    (posix : bool) (argv : list string) (w : world)
    (p1 p2 : string) (rest : list string) :
  let rs := fst (getopt_scan posix (tl argv)) in
  snd (getopt_scan posix (tl argv)) = p1 :: p2 :: rest ->
  first_info rs = None ->
  (tkof_of rs = 1 -> rest <> []) ->
  fst (main posix argv w) = 0 /\
  stderr_of (trace (snd (main posix argv w))) = stderr_of (trace w) /\
  (exists (options : list Z) (w1 : world),
     option_loop rs init_options PARAM_ENERGY w
       = (Next options (wanted_of rs), w1) /\
     main posix argv w =
       (0, if tkof_of rs =? 1
           then tkof (atof p1) (atof p2) (atof (hd EmptyString rest))
                     options w1
           else let '(mass, velocity, energy) :=
                      standard_inputs (wanted_of rs) p1 p2 in
                result mass velocity energy (wanted_of rs) options w1)) /\
  (forall (c : ascii) (s : string),
     starts_numeric c = false -> atof (String c s) = zero).
Proof.
  intros rs Hops Hinfo Hrest. subst rs.
  destruct (option_loop_parsed _ w Hinfo) as (o & w1 & P).
  rewrite (main_formula_run posix argv w p1 p2 rest o w1 Hops Hrest P).
  cbn [fst snd]. split; [reflexivity|]. split; [|split].
  - destruct (formula_run_writes (fst (getopt_scan posix (tl argv)))
                p1 p2 rest o w1) as (t & Wt & St).
    rewrite Wt, stderr_of_app, St, string_app_nil_r. apply P.
  - exists o, w1. split; [apply P | reflexivity].
  - intros c s H. apply atof_no_conversion. now apply strtod_not_numeric.
Qed.

Lemma operands_are_read_by_atof_witness :
  fst (main false ["muzz"; "abc"; "900"] initial_world) = 0 /\
  stderr_of (trace (snd (main false ["muzz"; "abc"; "900"] initial_world)))
    = EmptyString.
Proof.
  destruct (operands_are_read_by_atof false ["muzz"; "abc"; "900"]
              initial_world "abc" "900" [] eq_refl eq_refl
              ltac:(discriminate)) as (H0 & H1 & _).
  split; [exact H0 | exact H1].
Defined.

(** C1, as stated, fails: the operand abc is read as 0.0, not as the
    sentinel -1, and the line printed shows a mass of 0. *)
Lemma sentinel_claim_counterexample :
  strtod "abc" = None /\
  atof "abc" = zero /\
  (atof "abc" =? -1)%float = false /\
  main false ["muzz"; "abc"; "900"] initial_world =
    (0, {| K := 450240%float;
           trace := [Stdout (cat ["0 gr @ 900 ft/s = 0 lbf"; LF])] |}).
Proof. repeat split; reflexivity. Qed.

(** ** What the flags can select *)

Lemma last_wins_cases {A : Type} (pick : getopt_ret -> option A)
    (P : A -> Prop) (rs : list getopt_ret) :
  (forall r a, pick r = Some a -> P a) ->
  forall d, P d -> P (last_wins pick rs d).
Proof.
  intro Hp. induction rs as [|r rs IH]; intros d Hd; simpl; [exact Hd|].
  apply IH. destruct (pick r) as [a|] eqn:E; simpl; [eauto | exact Hd].
Qed.

Lemma k_of_cases (rs : list getopt_ret) :
  k_of rs = -1 \/ k_of rs = 0 \/ k_of rs = 1 \/ k_of rs = 2.
Proof.
  unfold k_of. apply last_wins_cases; [|auto].
  intros [c a|c|c] x E; try discriminate E. simpl in E.
  destruct c as [[] [] [] [] [] [] [] []]; try discriminate E;
    injection E as <-; auto.
Qed.

Lemma wanted_of_cases (rs : list getopt_ret) :
  wanted_of rs = PARAM_MASS \/ wanted_of rs = PARAM_VELOCITY \/
  wanted_of rs = PARAM_ENERGY.
Proof.
  unfold wanted_of. apply last_wins_cases; [|auto].
  intros [c a|c|c] x E; try discriminate E. simpl in E.
  destruct c as [[] [] [] [] [] [] [] []]; try discriminate E;
    injection E as <-; auto.
Qed.

(** ** The standard formula *)

Lemma result_K (mass velocity energy : double) (param : Z) (o : list Z)
    (w : world) :
  K (result mass velocity energy param o w) =
    expected_K (opt_get o OPT_K) (opt_get o OPT_SI) (K w).
Proof.
  destruct (result_writes mass velocity energy param o w) as (t & E & _).
  rewrite E, resolve_K_spec. reflexivity.
Qed.

Lemma solve_K (mass velocity energy : double) (param : Z) (o : list Z)
    (w : world) :
  K (snd (solve mass velocity energy param o w)) = K w.
Proof.
  unfold solve.
  destruct (param =? PARAM_ENERGY);
    [| destruct (param =? PARAM_MASS);
       [| destruct (param =? PARAM_VELOCITY)]]; cbn [snd];
    try reflexivity;
    match goal with
    | |- K (verbose_result ?m ?v ?e o w) = _ =>
        destruct (verbose_result_writes m v e o) as (t & Wt & _);
        now rewrite Wt
    end.
Qed.

Ltac param_eqb :=
  change (PARAM_MASS =? PARAM_ENERGY) with false;
  change (PARAM_MASS =? PARAM_MASS) with true;
  change (PARAM_VELOCITY =? PARAM_ENERGY) with false;
  change (PARAM_VELOCITY =? PARAM_MASS) with false;
  change (PARAM_VELOCITY =? PARAM_VELOCITY) with true;
  change (PARAM_ENERGY =? PARAM_ENERGY) with true;
  cbv iota.

Lemma standard_result_terse (wanted : Z) (p1 p2 : string) (o : list Z)
    (w : world) :
  wanted = PARAM_MASS \/ wanted = PARAM_VELOCITY \/ wanted = PARAM_ENERGY ->
  opt_get o OPT_VERBOSE = -1 ->
  (let '(mass, velocity, energy) := standard_inputs wanted p1 p2 in
   result mass velocity energy wanted o w) =
  let k := expected_K (opt_get o OPT_K) (opt_get o OPT_SI) (K w) in
  {| K := k;
     trace := (trace w ++
               [Stdout (cat [fmt_f (if opt_get o OPT_PRECISE =? 1
                                    then 2 else 0)
                               (standard_value k wanted (opt_get o OPT_SI)
                                               p1 p2);
                             LF])])%list |}.
Proof.
  intros Hw Hv. cbv zeta.
  destruct Hw as [-> | [-> | ->]];
    unfold standard_inputs, standard_value, result, solve, verbose_result;
    rewrite resolve_K_spec, Hv;
    cbn [K trace];
    change (-1 =? 1) with false; cbn [negb];
    param_eqb;
    unfold skip;
    destruct (opt_get o OPT_PRECISE =? 1); reflexivity.
Qed.

Lemma standard_result_rounded (wanted : Z) (p1 p2 : string) (o : list Z)
    (w : world) :
  wanted = PARAM_MASS \/ wanted = PARAM_VELOCITY \/ wanted = PARAM_ENERGY ->
  opt_get o OPT_VERBOSE = 1 ->
  opt_get o OPT_PRECISE = -1 ->
  (let '(mass, velocity, energy) := standard_inputs wanted p1 p2 in
   result mass velocity energy wanted o w) =
  let k := expected_K (opt_get o OPT_K) (opt_get o OPT_SI) (K w) in
  {| K := k;
     trace := (trace w ++
               [Stdout (let '(mass, velocity, energy) :=
                          displayed k wanted (opt_get o OPT_SI) p1 p2 in
                        rounded_line (opt_get o OPT_SI)
                                     mass velocity energy)])%list |}.
Proof.
  intros Hw Hv Hp. cbv zeta.
  destruct Hw as [-> | [-> | ->]];
    unfold standard_inputs, displayed, standard_value, rounded_line,
           result, solve, verbose_result;
    rewrite resolve_K_spec, Hv, Hp;
    cbn [K trace];
    change (1 =? 1) with true; change (-1 =? 1) with false; cbn [negb];
    param_eqb;
    destruct (opt_get o OPT_SI =? 1); reflexivity.
Qed.

(** C2. In every invocation that reaches the standard formula, [K] ends
    as the constant mode and the unit system require: 1000 under metric
    units and 450240, 2*32.163*7000 or 2*32.1739*7000 under imperial units
    for the default, approximate-gravity and standard-gravity modes, and the
    value given with the last -k, whatever the unit system, for the custom
    mode.  The same holds of every call of [result]. *)
Theorem constant_resolution
    (posix : bool) (argv : list string) (w : world)
    (p1 p2 : string) (rest : list string) :
  let rs := fst (getopt_scan posix (tl argv)) in
  snd (getopt_scan posix (tl argv)) = p1 :: p2 :: rest ->
  first_info rs = None ->
  tkof_of rs = -1 ->
  K (snd (main posix argv w)) =
    expected_K (k_of rs) (si_of rs) (custom_of rs (K w)) /\
  (k_of rs = -1 \/ k_of rs = 0 \/ k_of rs = 1 \/ k_of rs = 2) /\
  (forall (mass velocity energy : double) (param : Z) (options : list Z)
          (w0 : world),
     K (result mass velocity energy param options w0) =
       expected_K (opt_get options OPT_K) (opt_get options OPT_SI) (K w0)).
Proof.
  intros rs Hops Hinfo Ht. subst rs.
  split; [| split; [apply k_of_cases | intros; apply result_K]].
  destruct (option_loop_parsed _ w Hinfo) as (o & w1 & P).
  rewrite (main_formula_run posix argv w p1 p2 rest o w1 Hops); trivial.
  - cbn [snd]. unfold formula_run. rewrite Ht. change (-1 =? 1) with false.
    cbv iota. destruct (standard_inputs _ p1 p2) as [[m v] e].
    rewrite result_K.
    destruct P as (_ & _ & P2 & _ & _ & P5 & P6 & _).
    now rewrite P2, P5, P6.
  - rewrite Ht. discriminate.
Qed.

Lemma constant_resolution_witness :
  K (snd (main false ["muzz"; "-s"; "-k"; "123.5"; "15"; "270"]
               initial_world)) = 123.5%float /\
  K (snd (main false ["muzz"; "-k"; "123.5"; "-sc"; "15"; "270"]
               initial_world)) = 1000%float /\
  K (snd (main false ["muzz"; "-c"; "230"; "900"] initial_world))
    = (2 * 32.163 * 7000)%float.
Proof.
  split; [| split].
  - exact (proj1 (constant_resolution false
                    ["muzz"; "-s"; "-k"; "123.5"; "15"; "270"] initial_world
                    "15" "270" [] eq_refl eq_refl eq_refl)).
  - exact (proj1 (constant_resolution false
                    ["muzz"; "-k"; "123.5"; "-sc"; "15"; "270"] initial_world
                    "15" "270" [] eq_refl eq_refl eq_refl)).
  - exact (proj1 (constant_resolution false
                    ["muzz"; "-c"; "230"; "900"] initial_world
                    "230" "900" [] eq_refl eq_refl eq_refl)).
Defined.

Lemma expected_K_positive (k si : Z) (custom : double) :
  k = -1 \/ k = 1 \/ k = 2 ->
  (0 <? expected_K k si custom)%float = true.
Proof.
  intros [-> | [-> | ->]]; unfold expected_K;
    destruct (si =? 1); reflexivity.
Qed.

(** C9 (amended). In every invocation that reaches the standard formula,
    the resolved [K] is strictly positive unless the constant mode is
    custom (then it is what atof made of the -k argument, unchecked), and
    [K] keeps its resolved value while the formula is computed and until
    main returns. *)
Theorem resolved_K_positive_unless_custom
    (posix : bool) (argv : list string) (w : world)
    (p1 p2 : string) (rest : list string) :
  let rs := fst (getopt_scan posix (tl argv)) in
  snd (getopt_scan posix (tl argv)) = p1 :: p2 :: rest ->
  first_info rs = None ->
  tkof_of rs = -1 ->
  (k_of rs <> 0 -> (0 <? K (snd (main posix argv w)))%float = true) /\
  (exists (options : list Z) (w1 : world),
     option_loop rs init_options PARAM_ENERGY w
       = (Next options (wanted_of rs), w1) /\
     (forall mass velocity energy : double,
        K (snd (solve mass velocity energy (wanted_of rs) options
                      (resolve_K options w1)))
          = K (resolve_K options w1)) /\
     K (snd (main posix argv w)) = K (resolve_K options w1)).
Proof.
  intros rs Hops Hinfo Ht. subst rs.
  destruct (option_loop_parsed _ w Hinfo) as (o & w1 & P).
  assert (Hmain : K (snd (main posix argv w)) = K (resolve_K o w1)).
  { rewrite (main_formula_run posix argv w p1 p2 rest o w1 Hops); trivial.
    - cbn [snd]. unfold formula_run. rewrite Ht. change (-1 =? 1) with false.
      cbv iota. destruct (standard_inputs _ p1 p2) as [[m v] e].
      now rewrite result_K, resolve_K_spec.
    - rewrite Ht. discriminate. }
  split.
  - intro Hk. rewrite Hmain, resolve_K_spec. cbn [K].
    destruct P as (_ & _ & _ & _ & _ & P5 & _). rewrite P5.
    apply expected_K_positive.
    destruct (k_of_cases (fst (getopt_scan posix (tl argv))))
      as [H | [H | [H | H]]]; auto. contradiction.
  - exists o, w1. split; [apply P|]. split; [|exact Hmain].
    intros. apply solve_K.
Qed.

Lemma resolved_K_positive_unless_custom_witness :
  (0 <? K (snd (main false ["muzz"; "-C"; "-m"; "900"; "414"]
                     initial_world)))%float = true.
Proof.
  apply (resolved_K_positive_unless_custom false
           ["muzz"; "-C"; "-m"; "900"; "414"] initial_world "900" "414" []
           eq_refl eq_refl eq_refl).
  discriminate.
Defined.

(** C9, as stated, fails: with -k 0 the formula runs with K = 0, which is
    not strictly positive, and the energy printed is infinite. *)
Lemma positive_K_claim_counterexample :
  K (snd (main false ["muzz"; "-k"; "0"; "230"; "900"] initial_world)) = zero
  /\
  (0 <? K (snd (main false ["muzz"; "-k"; "0"; "230"; "900"]
                     initial_world)))%float = false
  /\
  trace (snd (main false ["muzz"; "-k"; "0"; "230"; "900"] initial_world))
    = [Stdout (cat ["230 gr @ 900 ft/s = inf lbf"; LF])].
Proof. repeat split; reflexivity. Qed.

(** ** Terse and verbose output *)

Lemma tkof_terse (mass velocity diameter : double) (o : list Z) (w : world) :
  opt_get o OPT_VERBOSE = -1 ->
  tkof mass velocity diameter o w =
    {| K := K w;
       trace := (trace w ++
                 [Stdout (cat [fmt_f 2
                                 (if opt_get o OPT_SI =? 1
                                  then (mass * velocity * diameter / 3500)%float
                                  else (mass * velocity * diameter / 7000)%float);
                               LF])])%list |}.
Proof.
  intro Hv. unfold tkof. rewrite Hv. change (-1 =? 1) with false.
  destruct (opt_get o OPT_SI =? 1); reflexivity.
Qed.

Lemma frac_digits_length (p : nat) (n : Z) :
  String.length (frac_digits p n) = p.
Proof.
  induction p as [|p IH]; simpl; [reflexivity | now rewrite IH].
Qed.

(** C7 (amended). In terse mode main prints only the numeric result, on
    one line, and nothing of its own on the error stream.  For the standard
    formula, whichever quantity is solved for, the result has 0 decimal
    places in rounded mode and 2 in exact mode; for the knockout formula the
    score always has 2 decimal places.  (The fraction that [printf] writes
    for precision p has p digits.)  For mass 230 and velocity 900 under
    imperial units and the default constant 450240, the terse rounded output
    is the single line 414. *)
Theorem terse_output
    (posix : bool) (argv : list string) (w : world)
    (p1 p2 : string) (rest : list string) :
  let rs := fst (getopt_scan posix (tl argv)) in
  snd (getopt_scan posix (tl argv)) = p1 :: p2 :: rest ->
  first_info rs = None ->
  verbose_of rs = -1 ->
  (tkof_of rs = 1 -> rest <> []) ->
  stdout_of (trace (snd (main posix argv w))) =
    stdout_of (trace w) ++
    (if tkof_of rs =? 1
     then cat [fmt_f 2 (knockout_value (si_of rs) p1 p2
                                       (hd EmptyString rest));
               LF]
     else cat [fmt_f (if precise_of rs =? 1 then 2 else 0)
                 (standard_value
                    (expected_K (k_of rs) (si_of rs) (custom_of rs (K w)))
                    (wanted_of rs) (si_of rs) p1 p2);
               LF]) /\
  stderr_of (trace (snd (main posix argv w))) = stderr_of (trace w) /\
  (forall (p : nat) (n : Z), String.length (frac_digits p n) = p) /\
  main false ["muzz"; "-q"; "230"; "900"] initial_world =
    (0, {| K := 450240%float; trace := [Stdout (cat ["414"; LF])] |}).
Proof.
  intros rs Hops Hinfo Hv Hrest. subst rs.
  destruct (option_loop_parsed _ w Hinfo) as (o & w1 & P).
  split; [| split; [| split; [apply frac_digits_length | reflexivity]]].
  2:{ rewrite (main_formula_run posix argv w p1 p2 rest o w1 Hops Hrest P).
      cbn [snd].
      destruct (formula_run_writes (fst (getopt_scan posix (tl argv)))
                  p1 p2 rest o w1) as (t & Wt & St).
      rewrite Wt, stderr_of_app, St, string_app_nil_r. apply P. }
  rewrite (main_formula_run posix argv w p1 p2 rest o w1 Hops Hrest P).
  destruct P as (_ & P1 & P2 & P3 & P4 & P5 & P6 & S1 & _).
  rewrite Hv in P1.
  cbn [snd]. unfold formula_run.
  destruct (tkof_of (fst (getopt_scan posix (tl argv))) =? 1).
  - rewrite (tkof_terse _ _ _ o w1 P1). cbn [trace].
    rewrite stdout_of_app, S1, P2. unfold knockout_value.
    destruct (si_of (fst (getopt_scan posix (tl argv))) =? 1);
      cbn [stdout_of]; now rewrite string_app_nil_r.
  - rewrite (standard_result_terse _ p1 p2 o w1 (wanted_of_cases _) P1).
    cbn [trace]. rewrite stdout_of_app, S1, P2, P3, P5, P6.
    cbn [stdout_of]. now rewrite string_app_nil_r.
Qed.

Lemma terse_output_witness :
  stdout_of (trace (snd (main false ["muzz"; "-q"; "230"; "900"]
                              initial_world))) = cat ["414"; LF].
Proof.
  exact (proj1 (terse_output false ["muzz"; "-q"; "230"; "900"] initial_world
                  "230" "900" [] eq_refl eq_refl eq_refl
                  ltac:(discriminate))).
Defined.

(** C7, as stated, fails for the knockout formula: in terse, rounded mode
    (-q -t, no -p) the score is printed with 2 decimal places, 13.34, where
    0 decimal places would give 13. *)
Lemma terse_claim_counterexample :
  let argv := ["muzz"; "-q"; "-t"; "230"; "900"; "0.451"] in
  precise_of (fst (getopt_scan false (tl argv))) = -1 /\
  trace (snd (main false argv initial_world)) = [Stdout (cat ["13.34"; LF])] /\
  fmt_f 0 (atof "230" * atof "900" * atof "0.451" / 7000)%float = "13".
Proof. repeat split; reflexivity. Qed.

Lemma nearest_half_up_spec (m d : Z) :
  0 <= m -> 0 < d ->
  (2 * nearest_half_up m d - 1) * d <= 2 * m
    < (2 * nearest_half_up m d + 1) * d.
Proof.
  intros Hm Hd. unfold nearest_half_up.
  pose proof (Z.div_mod m d ltac:(lia)) as E.
  pose proof (Z.mod_pos_bound m d Hd) as B.
  destruct (Z.ltb_spec (2 * (m mod d)) d); nia.
Qed.

(** C8. In verbose, rounded mode the line of the standard formula shows,
    under imperial units, mass, velocity and energy each passed through
    [round] and printed without decimals, and under metric units mass and
    velocity with 2 decimals and only the energy passed through [round].
    [round] takes the magnitude to the nearest integer, halfway cases
    upward, and keeps the sign: halfway cases go away from zero. *)
Theorem verbose_rounded_display
    (posix : bool) (argv : list string) (w : world)
    (p1 p2 : string) (rest : list string) :
  let rs := fst (getopt_scan posix (tl argv)) in
  snd (getopt_scan posix (tl argv)) = p1 :: p2 :: rest ->
  first_info rs = None ->
  tkof_of rs = -1 ->
  verbose_of rs = 1 ->
  precise_of rs = -1 ->
  stdout_of (trace (snd (main posix argv w))) =
    stdout_of (trace w) ++
    (let '(mass, velocity, energy) :=
       displayed (expected_K (k_of rs) (si_of rs) (custom_of rs (K w)))
                 (wanted_of rs) (si_of rs) p1 p2 in
     if si_of rs =? 1
     then cat [fmt_f 2 mass; " g @ "; fmt_f 2 velocity; " m/s = ";
               fmt_f 0 (c_round energy); " J"; LF]
     else cat [fmt_f 0 (c_round mass); " gr @ "; fmt_f 0 (c_round velocity);
               " ft/s = "; fmt_f 0 (c_round energy); " lbf"; LF]) /\
  (forall m d : Z, 0 <= m -> 0 < d ->
     (2 * nearest_half_up m d - 1) * d <= 2 * m
       < (2 * nearest_half_up m d + 1) * d) /\
  c_round 2.5%float = 3%float /\ c_round (-2.5)%float = (-3)%float /\
  c_round 2.4%float = 2%float /\ c_round (-2.6)%float = (-3)%float.
Proof.
  intros rs Hops Hinfo Ht Hv Hp. subst rs.
  split; [| split; [exact nearest_half_up_spec | repeat split; reflexivity]].
  destruct (option_loop_parsed _ w Hinfo) as (o & w1 & P).
  rewrite (main_formula_run posix argv w p1 p2 rest o w1 Hops);
    [| rewrite Ht; discriminate | exact P].
  destruct P as (_ & P1 & P2 & P3 & P4 & P5 & P6 & S1 & _).
  rewrite Hv in P1. rewrite Hp in P3.
  cbn [snd]. unfold formula_run. rewrite Ht. change (-1 =? 1) with false.
  cbv iota.
  rewrite (standard_result_rounded _ p1 p2 o w1 (wanted_of_cases _) P1 P3).
  cbn [trace]. rewrite stdout_of_app, S1, P2, P5, P6.
  cbn [stdout_of]. rewrite string_app_nil_r.
  destruct (displayed _ _ _ p1 p2) as [[m v] e]. reflexivity.
Qed.

Lemma verbose_rounded_display_witness :
  stdout_of (trace (snd (main false ["muzz"; "-s"; "15"; "270"]
                              initial_world)))
    = cat ["15.00 g @ 270.00 m/s = 547 J"; LF] /\
  stdout_of (trace (snd (main false ["muzz"; "230.4"; "900.5"]
                              initial_world)))
    = cat ["230 gr @ 901 ft/s = 415 lbf"; LF].
Proof.
  split.
  - exact (proj1 (verbose_rounded_display false ["muzz"; "-s"; "15"; "270"]
                    initial_world "15" "270" []
                    eq_refl eq_refl eq_refl eq_refl eq_refl)).
  - exact (proj1 (verbose_rounded_display false ["muzz"; "230.4"; "900.5"]
                    initial_world "230.4" "900.5" []
                    eq_refl eq_refl eq_refl eq_refl eq_refl)).
Defined.

(** ** Formula engine *)

(** C4. [get_energy] returns (mass/2) * velocity^2 / K when the unit
    system is metric ([si] is 1) and mass * velocity^2 / K otherwise, on
    doubles as the program computes it and on real numbers; with the same
    K the metric value is half the imperial one, so the unit system changes
    the formula and not only the constant. *)
Theorem get_energy_formula (K mass velocity : double) (si : Z) :
  get_energy K mass velocity si =
    (if si =? 1
     then (mass / 2 * (velocity * velocity) / K)%float
     else (mass * (velocity * velocity) / K)%float) /\
  (forall k m v : R,
     Exact.get_energy k m v si =
       if si =? 1 then (m / 2 * v ^ 2 / k)%R else (m * v ^ 2 / k)%R) /\
  (forall k m v : R,
     Exact.get_energy k m v 1 = (Exact.get_energy k m v (-1) / 2)%R) /\
  get_energy 1000 15 270 1 = 546.75%float /\
  get_energy 1000 15 270 (-1) = 1093.5%float.
Proof.
  split; [| split; [| split; [| split; reflexivity]]].
  - unfold get_energy, Formula.get_energy. destruct (si =? 1); reflexivity.
  - intros k m v. unfold Exact.get_energy, Formula.get_energy.
    destruct (si =? 1); unfold Rdiv; ring.
  - intros k m v. unfold Exact.get_energy, Formula.get_energy.
    change (1 =? 1) with true. change (-1 =? 1) with false.
    unfold Rdiv; ring.
Qed.

(** In exact real arithmetic the round trip through the energy is the
    identity, for all positive mass, velocity and K. *)
Lemma exact_round_trip (k m v : R) (si : Z) :
  (0 < k)%R -> (0 < m)%R -> (0 < v)%R ->
  Exact.get_mass k v (Exact.get_energy k m v si) si = m /\
  Exact.get_velocity k m (Exact.get_energy k m v si) si = v.
Proof.
  intros Hk Hm Hv.
  unfold Exact.get_mass, Exact.get_velocity, Exact.get_energy,
         Formula.get_mass, Formula.get_velocity, Formula.get_energy.
  destruct (si =? 1); split; try (field; lra);
    (transitivity (sqrt (v * v));
     [f_equal; field; lra | apply sqrt_square; lra]).
Qed.

(** ** Rounding errors of binary64 arithmetic *)

Lemma IZR_xO (p : positive) :
  IZR (Zpos p~0) = (IZR (Zpos p) + IZR (Zpos p))%R.
Proof. rewrite Pos2Z.inj_xO, mult_IZR. lra. Qed.

Lemma IZR_xI (p : positive) :
  IZR (Zpos p~1) = (IZR (Zpos p) + IZR (Zpos p) + 1)%R.
Proof. rewrite Pos2Z.inj_xI, plus_IZR, mult_IZR. lra. Qed.

Lemma shr_1_located (x : R) (mrs : shr_record) :
  0 <= shr_m mrs ->
  located x (shr_m mrs) (loc_of_shr_record mrs) ->
  0 <= shr_m (shr_1 mrs) /\
  located (x / 2) (shr_m (shr_1 mrs)) (loc_of_shr_record (shr_1 mrs)).
Proof.
  destruct mrs as [m r s]. simpl shr_m at 1 2.
  intros Hm H.
  destruct m as [|[p|p|]|p]; try lia;
    destruct r, s;
    cbn [shr_1 shr_m shr_r shr_s loc_of_shr_record located orb] in H |- *;
    try rewrite IZR_xO in H; try rewrite IZR_xI in H;
    (split; [lia | lra]).
Qed.

Lemma bpow_pos (e : Z) : (0 < bpow e)%R.
Proof. apply powerRZ_lt; lra. Qed.

Lemma bpow_add (a b : Z) : bpow (a + b) = (bpow a * bpow b)%R.
Proof. apply powerRZ_add; lra. Qed.

Lemma bpow_opp (a : Z) : bpow (- a) = (/ bpow a)%R.
Proof. unfold bpow. rewrite powerRZ_neg'. reflexivity. Qed.

Lemma bpow_1 : bpow 1 = 2%R.
Proof. unfold bpow. simpl. lra. Qed.

Lemma iter_shr_located (p : positive) :
  forall (x : R) (mrs : shr_record),
    0 <= shr_m mrs ->
    located x (shr_m mrs) (loc_of_shr_record mrs) ->
    0 <= shr_m (SpecFloat.iter_pos shr_1 p mrs) /\
    located (x * bpow (- Zpos p)) (shr_m (SpecFloat.iter_pos shr_1 p mrs))
            (loc_of_shr_record (SpecFloat.iter_pos shr_1 p mrs)).
Proof.
  induction p as [p IH|p IH|]; intros x mrs Hm H; simpl SpecFloat.iter_pos.
  - destruct (shr_1_located x mrs Hm H) as [H1 L1].
    destruct (IH _ _ H1 L1) as [H2 L2].
    destruct (IH _ _ H2 L2) as [H3 L3].
    split; [exact H3|].
    replace (x * bpow (- Zpos p~1))%R
      with (x / 2 * bpow (- Zpos p) * bpow (- Zpos p))%R; [exact L3|].
    rewrite Pos2Z.inj_xI.
    replace (- (2 * Zpos p + 1)) with (-1 + (- Zpos p + - Zpos p)) by lia.
    rewrite !bpow_add. change (-1) with (- (1)). rewrite (bpow_opp 1), bpow_1.
    field.
  - destruct (IH _ _ Hm H) as [H2 L2].
    destruct (IH _ _ H2 L2) as [H3 L3].
    split; [exact H3|].
    replace (x * bpow (- Zpos p~0))%R
      with (x * bpow (- Zpos p) * bpow (- Zpos p))%R; [exact L3|].
    rewrite Pos2Z.inj_xO.
    replace (- (2 * Zpos p)) with ((- Zpos p + - Zpos p)) by lia.
    rewrite !bpow_add. ring.
  - destruct (shr_1_located x mrs Hm H) as [H1 L1].
    split; [exact H1|].
    change (- 1) with (- (1)). rewrite (bpow_opp 1), bpow_1. exact L1.
Qed.


Lemma shr_located (x : R) (mrs : shr_record) (e n : Z) :
  0 <= shr_m mrs ->
  located (x * bpow (- e)) (shr_m mrs) (loc_of_shr_record mrs) ->
  0 <= shr_m (fst (shr mrs e n)) /\
  located (x * bpow (- snd (shr mrs e n))) (shr_m (fst (shr mrs e n)))
          (loc_of_shr_record (fst (shr mrs e n))) /\
  snd (shr mrs e n) = e + Z.max 0 n.
Proof.
  intros Hm H. destruct n as [|p|p]; cbn [shr fst snd].
  - rewrite Z.add_0_r. auto.
  - destruct (iter_shr_located p _ mrs Hm H) as [H1 L1].
    split; [exact H1|]. split; [|lia].
    replace (- (e + Zpos p)) with (- e + - Zpos p) by lia.
    rewrite bpow_add, <- Rmult_assoc. exact L1.
  - split; [exact Hm|]. split; [exact H|lia].
Qed.

Lemma shr_record_of_loc_m (m : Z) (l : location) :
  shr_m (shr_record_of_loc m l) = m.
Proof. destruct l as [|[]]; reflexivity. Qed.

Lemma loc_of_shr_record_of_loc (m : Z) (l : location) :
  loc_of_shr_record (shr_record_of_loc m l) = l.
Proof. destruct l as [|[]]; reflexivity. Qed.

Lemma round_nearest_even_error (x : R) (m : Z) (l : location) :
  0 <= m -> located x m l ->
  m <= round_nearest_even m l <= m + 1 /\
  (Rabs (IZR (round_nearest_even m l) - x) <= / 2)%R.
Proof.
  intros Hm H. unfold round_nearest_even.
  destruct l as [|[]]; cbn [located] in H.
  - split; [lia|]. subst x. rewrite Rminus_diag, Rabs_R0. lra.
  - destruct (Z.even m).
    + split; [lia|]. subst x.
      replace (IZR m - (IZR m + / 2))%R with (- / 2)%R by ring.
      rewrite Rabs_Ropp, Rabs_pos_eq; lra.
    + split; [lia|]. subst x. rewrite plus_IZR.
      replace (IZR m + 1 - (IZR m + / 2))%R with (/ 2)%R by field.
      rewrite Rabs_pos_eq; lra.
  - split; [lia|]. apply Rabs_le. lra.
  - split; [lia|]. rewrite plus_IZR. apply Rabs_le. lra.
Qed.

Lemma located_bounds (x : R) (m : Z) (l : location) :
  located x m l -> (IZR m <= x < IZR m + 1)%R.
Proof. destruct l as [|[]]; cbn [located]; lra. Qed.

Lemma digits2_pos_bounds (m : positive) :
  2 ^ (Zpos (digits2_pos m) - 1) <= Zpos m < 2 ^ Zpos (digits2_pos m).
Proof.
  induction m as [m IH|m IH|]; cbn [digits2_pos].
  - rewrite Pos2Z.inj_succ, Pos2Z.inj_xI.
    replace (Z.succ (Zpos (digits2_pos m)) - 1)
      with (Z.succ (Zpos (digits2_pos m) - 1)) by lia.
    rewrite !Z.pow_succ_r by lia. lia.
  - rewrite Pos2Z.inj_succ. change (Zpos m~0) with (2 * Zpos m).
    replace (Z.succ (Zpos (digits2_pos m)) - 1)
      with (Z.succ (Zpos (digits2_pos m) - 1)) by lia.
    rewrite !Z.pow_succ_r by lia. lia.
  - simpl. lia.
Qed.

Lemma bpow_IZR (e : Z) : 0 <= e -> bpow e = IZR (2 ^ e).
Proof.
  intro He. unfold bpow.
  rewrite <- (Z2Nat.id e He). rewrite <- pow_powerRZ, <- Zpower_nat_Z.
  now rewrite pow_IZR, <- Zpower_nat_Z.
Qed.

Lemma bpow_ge_1 (e : Z) : 0 <= e -> (1 <= bpow e)%R.
Proof.
  intro He. rewrite (bpow_IZR e He). apply IZR_le.
  pose proof (Z.pow_pos_nonneg 2 e ltac:(lia) He). lia.
Qed.

Lemma bpow_le (a b : Z) : a <= b -> (bpow a <= bpow b)%R.
Proof.
  intro H. replace b with (a + (b - a)) by lia. rewrite bpow_add.
  pose proof (bpow_pos a). pose proof (bpow_ge_1 (b - a) ltac:(lia)). nra.
Qed.

Lemma bpow_lt (a b : Z) : a < b -> (bpow a < bpow b)%R.
Proof.
  intro H. replace b with (a + 1 + (b - a - 1)) by lia.
  rewrite !bpow_add, bpow_1.
  pose proof (bpow_pos a). pose proof (bpow_ge_1 (b - a - 1) ltac:(lia)). nra.
Qed.


Lemma fexp_eq (e : Z) : fexp prec emax e = Z.max (e - 53) (-1074).
Proof. reflexivity. Qed.

Lemma Zdigits2_bounds (m : Z) :
  0 <= m -> 0 <= Zdigits2 m /\ m < 2 ^ Zdigits2 m /\
  (0 < m -> 2 ^ (Zdigits2 m - 1) <= m).
Proof.
  destruct m as [|p|p]; try lia; intros _; cbn [Zdigits2].
  - simpl. lia.
  - pose proof (digits2_pos_bounds p). lia.
Qed.

Lemma Zdigits2_le (m d : Z) :
  0 <= m -> 0 <= d -> m <= 2 ^ d -> Zdigits2 m <= d + 1.
Proof.
  intros Hm Hd H.
  destruct (Z.eq_dec m 0) as [-> | Hn]; [simpl; lia|].
  destruct (Zdigits2_bounds m Hm) as (D0 & _ & D2).
  specialize (D2 ltac:(lia)).
  destruct (Z.le_gt_cases (Zdigits2 m) (d + 1)) as [|Hgt]; [assumption|].
  assert (2 ^ (d + 1) <= 2 ^ (Zdigits2 m - 1))
    by (apply Z.pow_le_mono_r; lia).
  rewrite Z.pow_add_r in H0 by lia. lia.
Qed.

Lemma binary_round_aux_unfold (s : bool) (mx ex : Z) (lx : location) :
  binary_round_aux prec emax s mx ex lx =
    let r1 := shr_fexp prec emax mx ex lx in
    let m2 := round_nearest_even (shr_m (fst r1))
                                 (loc_of_shr_record (fst r1)) in
    let r2 := shr_fexp prec emax m2 (snd r1) loc_Exact in
    match shr_m (fst r2) with
    | Z0 => S754_zero s
    | Zpos m =>
        if snd r2 <=? emax - prec then S754_finite s m (snd r2)
        else S754_infinity s
    | Zneg _ => S754_nan
    end.
Proof.
  unfold binary_round_aux.
  destruct (shr_fexp prec emax mx ex lx) as [mrs1 e1]. cbn [fst snd].
  destruct (shr_fexp prec emax _ e1 loc_Exact) as [mrs2 e2].
  reflexivity.
Qed.

Lemma binary_round_aux_error (s : bool) (mx ex : Z) (lx : location) (X : R)
    (s' : bool) (m : positive) (e : Z) :
  0 <= mx ->
  located (X * bpow (- ex)) mx lx ->
  binary_round_aux prec emax s mx ex lx = S754_finite s' m e ->
  s' = s /\ (Rabs (IZR (Zpos m) * bpow e - X) <= bpow e / 2)%R.
Proof.
  intros Hmx HX. rewrite binary_round_aux_unfold. cbv zeta.
  unfold shr_fexp.
  pose proof (shr_located X (shr_record_of_loc mx lx) ex
                (fexp prec emax (Zdigits2 mx + ex) - ex)) as S1.
  rewrite shr_record_of_loc_m, loc_of_shr_record_of_loc in S1.
  specialize (S1 Hmx HX).
  remember (fexp prec emax (Zdigits2 mx + ex) - ex) as n1 eqn:En1.
  remember (shr (shr_record_of_loc mx lx) ex n1) as r1 eqn:Er1.
  destruct S1 as (Hm1 & L1 & He1).
  remember (shr_m (fst r1)) as m1 eqn:Em1.
  remember (loc_of_shr_record (fst r1)) as l1 eqn:El1.
  remember (snd r1) as e1 eqn:Ee1.
  destruct (round_nearest_even_error _ m1 l1 Hm1 L1) as (Hm2 & E2).
  remember (round_nearest_even m1 l1) as m2 eqn:Edm2.
  remember (fexp prec emax (Zdigits2 m2 + e1) - e1) as n2 eqn:En2.
  (* size of m1 *)
  destruct (Zdigits2_bounds mx Hmx) as (Hd0 & Hd1 & Hd2).
  remember (Zdigits2 mx) as d eqn:Ed.
  pose proof (located_bounds _ _ _ HX) as BX.
  pose proof (located_bounds _ _ _ L1) as B1.
  assert (Hn2 : n2 <= 0 \/ (n2 = 1 /\ m2 = 2 ^ 53)).
  { rewrite fexp_eq in En1, En2. subst n1 n2.
    destruct (Z.le_gt_cases 0 (Z.max (d + ex - 53) (-1074) - ex)) as [Hn|Hn].
    - (* a shift took place, or none was needed *)
      assert (Hk : d + ex - e1 <= 53) by lia.
      assert (Hlt : (IZR m1 < bpow 53)%R).
      { apply Rle_lt_trans with (1 := proj1 B1).
        apply Rlt_le_trans with (bpow (d + ex - e1)); [| apply bpow_le; lia].
        replace (d + ex - e1) with (d + (ex - e1)) by lia.
        rewrite bpow_add, (bpow_IZR d Hd0).
        replace (- e1) with (- ex + (ex - e1)) by lia.
        rewrite bpow_add, <- Rmult_assoc.
        apply Rmult_lt_compat_r; [apply bpow_pos|].
        apply Rlt_le_trans with (1 := proj2 BX).
        rewrite <- (plus_IZR mx 1). apply IZR_le. lia. }
      rewrite (bpow_IZR 53) in Hlt by lia. apply lt_IZR in Hlt.
      destruct (Z.le_gt_cases (Zdigits2 m2) 53) as [Hd|Hd]; [left; lia|].
      right.
      destruct (Zdigits2_bounds m2 ltac:(lia)) as (_ & _ & D2).
      assert (0 < m2).
      { destruct (Z.eq_dec m2 0) as [E0|]; [|lia].
        rewrite E0 in Hd. simpl in Hd. lia. }
      specialize (D2 H).
      assert (2 ^ 53 <= 2 ^ (Zdigits2 m2 - 1))
        by (apply Z.pow_le_mono_r; lia).
      assert (Em2 : m2 = 2 ^ 53) by lia.
      split; [|exact Em2]. rewrite Em2. simpl Zdigits2. lia.
    - (* the mantissa is kept as it is *)
      left.
      assert (He : e1 = ex) by lia.
      assert (Hm1' : (IZR m1 < IZR (2 ^ d))%R).
      { apply Rle_lt_trans with (1 := proj1 B1). rewrite He.
        apply Rlt_le_trans with (1 := proj2 BX).
        rewrite <- (plus_IZR mx 1). apply IZR_le. lia. }
      apply lt_IZR in Hm1'.
      pose proof (Zdigits2_le m2 d ltac:(lia) Hd0 ltac:(lia)). lia. }
  assert (Hval : forall m3 e3,
             (IZR m3 * bpow e3 = IZR m2 * bpow e1)%R -> e1 <= e3 ->
             (Rabs (IZR m3 * bpow e3 - X) <= bpow e3 / 2)%R).
  { intros m3 e3 Ev Hle. rewrite Ev.
    replace (IZR m2 * bpow e1 - X)%R
      with (bpow e1 * (IZR m2 - X * bpow (- e1)))%R.
    - rewrite Rabs_mult, (Rabs_pos_eq (bpow e1)) by (apply Rlt_le, bpow_pos).
      pose proof (bpow_le e1 e3 Hle). pose proof (bpow_pos e1).
      pose proof (Rabs_pos (IZR m2 - X * bpow (- e1))). nra.
    - rewrite bpow_opp. field. apply Rgt_not_eq, bpow_pos. }
  destruct Hn2 as [Hn2 | [Hn2 Em2]].
  - assert (Es : shr (shr_record_of_loc m2 loc_Exact) e1 n2
                 = (shr_record_of_loc m2 loc_Exact, e1))
      by (destruct n2; try reflexivity; lia).
    rewrite Es. cbn [fst snd shr_record_of_loc shr_m].
    destruct m2 as [|p|p]; try discriminate.
    destruct (e1 <=? emax - prec); try discriminate.
    intro E. injection E as <- <- <-.
    split; [reflexivity|]. now apply Hval.
  - rewrite Hn2, Em2. cbn [fst snd shr_record_of_loc shr_m shr].
    change (shr_m (SpecFloat.iter_pos shr_1 1
                     {| shr_m := 2 ^ 53; shr_r := false; shr_s := false |}))
      with (2 ^ 52).
    change (2 ^ 52) with (Zpos (2 ^ 52)%positive).
    destruct (e1 + 1 <=? emax - prec); try discriminate.
    intro E. injection E as <- <- <-.
    split; [reflexivity|]. apply Hval; [|lia].
    rewrite Em2, bpow_add, bpow_1.
    change (IZR (2 ^ 53)) with (IZR (2 * Zpos (2 ^ 52)%positive)).
    rewrite mult_IZR. ring.
Qed.


Lemma pos_normal_inv (x : double) :
  pos_normal x = true ->
  exists m e, Prim2SF x = S754_finite false m e /\ 2 ^ 52 <= Zpos m /\
              B2R x = (IZR (Zpos m) * bpow e)%R /\ (0 < B2R x)%R.
Proof.
  unfold pos_normal, B2R.
  destruct (Prim2SF x) as [| | |[] m e]; try discriminate.
  intro H. apply Z.leb_le in H. exists m, e. cbn [SF2R cond_Zopp].
  repeat split; auto.
  apply Rmult_lt_0_compat; [apply IZR_lt; lia | apply bpow_pos].
Qed.

(** Half a unit in the last place of a normal number is at most [u] times
    the number. *)
Lemma half_ulp_normal (m : positive) (e : Z) :
  2 ^ 52 <= Zpos m ->
  (bpow e / 2 <= u * (IZR (Zpos m) * bpow e))%R.
Proof.
  intro H. unfold u.
  assert (Hm : (bpow 52 <= IZR (Zpos m))%R).
  { rewrite (bpow_IZR 52) by lia. now apply IZR_le. }
  assert (E : (bpow (-53) * bpow 52 = / 2)%R).
  { rewrite <- bpow_add. change (-53 + 52) with (- (1)).
    now rewrite bpow_opp, bpow_1. }
  pose proof (bpow_pos e). pose proof (bpow_pos (-53)).
  replace (bpow e / 2)%R with (bpow (-53) * bpow 52 * bpow e)%R
    by (rewrite E; field).
  rewrite <- Rmult_assoc. apply Rmult_le_compat_r; [lra|].
  apply Rmult_le_compat_l; lra.
Qed.

Lemma round_normal (X : R) (mz ez : Z) (lz : location) (z : double) :
  0 <= mz ->
  located (X * bpow (- ez)) mz lz ->
  Prim2SF z = binary_round_aux prec emax false mz ez lz ->
  pos_normal z = true ->
  rounds_to X z.
Proof.
  intros Hm HX Ez Hz.
  destruct (pos_normal_inv z Hz) as (m & e & E & Hn & Eb & Hp).
  rewrite E in Ez. symmetry in Ez.
  destruct (binary_round_aux_error false mz ez lz X false m e Hm HX Ez)
    as [_ Herr].
  split; [exact Hp|]. rewrite Eb.
  apply Rle_trans with (1 := Herr). now apply half_ulp_normal.
Qed.

(** *** Multiplication *)

Lemma mul_rounds (x y : double) :
  pos_normal x = true -> pos_normal y = true ->
  pos_normal (x * y) = true ->
  rounds_to (B2R x * B2R y) (x * y)%float.
Proof.
  intros Hx Hy Hz.
  destruct (pos_normal_inv x Hx) as (mx & ex & Ex & _ & Bx & _).
  destruct (pos_normal_inv y Hy) as (my & ey & Ey & _ & By & _).
  apply (round_normal _ (Zpos (mx * my)) (ex + ey) loc_Exact); trivial.
  - lia.
  - cbn [located]. rewrite Bx, By, Pos2Z.inj_mul, mult_IZR.
    replace (- (ex + ey)) with (- ex + - ey) by lia.
    rewrite bpow_add, !bpow_opp. field.
    split; apply Rgt_not_eq, bpow_pos.
  - rewrite mul_spec, Ex, Ey. reflexivity.
Qed.

(** *** Division *)

Lemma new_location_located (nb k q : Z) :
  0 < nb -> 0 <= k < nb ->
  located (IZR q + IZR k / IZR nb) q (new_location nb k).
Proof.
  intros Hnb Hk.
  assert (Hnb' : (0 < IZR nb)%R) by (apply IZR_lt; lia).
  assert (Hk0 : (0 <= IZR k)%R) by (apply IZR_le; lia).
  assert (Hk1 : (IZR k < IZR nb)%R) by (apply IZR_lt; lia).
  assert (Hdiv : forall c : R, (c * IZR nb < IZR k -> c < IZR k / IZR nb)%R).
  { intros c Hc. apply Rmult_lt_reg_r with (IZR nb); [lra|].
    unfold Rdiv. rewrite Rmult_assoc, Rinv_l; lra. }
  assert (Hdiv' : forall c : R, (IZR k < c * IZR nb -> IZR k / IZR nb < c)%R).
  { intros c Hc. apply Rmult_lt_reg_r with (IZR nb); [lra|].
    unfold Rdiv. rewrite Rmult_assoc, Rinv_l; lra. }
  unfold new_location, new_location_even, new_location_odd.
  destruct (Z.even nb) eqn:Hev; destruct (Z.eqb_spec k 0) as [E0 | Hk'].
  - subst k. cbn [located]. unfold Rdiv. rewrite Rmult_0_l. lra.
  - assert (Hkpos : (0 < IZR k)%R) by (apply IZR_lt; lia).
    destruct (Z.compare_spec (2 * k) nb) as [E|L|G]; cbn [located].
    + replace (IZR k / IZR nb)%R with (/ 2)%R; [reflexivity|].
      rewrite <- E, mult_IZR. field. lra.
    + apply IZR_lt in L. rewrite mult_IZR in L.
      pose proof (Hdiv 0%R). pose proof (Hdiv' (/ 2)%R). lra.
    + apply IZR_lt in G. rewrite mult_IZR in G.
      pose proof (Hdiv (/ 2)%R). pose proof (Hdiv' 1%R). lra.
  - subst k. cbn [located]. unfold Rdiv. rewrite Rmult_0_l. lra.
  - assert (Hkpos : (0 < IZR k)%R) by (apply IZR_lt; lia).
    assert (Hodd : 2 * k <> nb).
    { intro E. rewrite <- E, Z.even_mul in Hev. discriminate. }
    destruct (Z.compare_spec (2 * k + 1) nb) as [E|L|G]; cbn [located].
    + assert (L : 2 * k < nb) by lia.
      apply IZR_lt in L. rewrite mult_IZR in L.
      pose proof (Hdiv 0%R). pose proof (Hdiv' (/ 2)%R). lra.
    + assert (L' : 2 * k < nb) by lia.
      apply IZR_lt in L'. rewrite mult_IZR in L'.
      pose proof (Hdiv 0%R). pose proof (Hdiv' (/ 2)%R). lra.
    + assert (G' : nb < 2 * k) by lia.
      apply IZR_lt in G'. rewrite mult_IZR in G'.
      pose proof (Hdiv (/ 2)%R). pose proof (Hdiv' 1%R). lra.
Qed.

Lemma SFdiv_core_located (mx my : positive) (ex ey : Z) :
  0 <= fst (fst (SFdiv_core_binary prec emax (Zpos mx) ex (Zpos my) ey)) /\
  located (IZR (Zpos mx) * bpow ex / (IZR (Zpos my) * bpow ey)
           * bpow (- snd (fst (SFdiv_core_binary prec emax
                                 (Zpos mx) ex (Zpos my) ey))))
          (fst (fst (SFdiv_core_binary prec emax (Zpos mx) ex (Zpos my) ey)))
          (snd (SFdiv_core_binary prec emax (Zpos mx) ex (Zpos my) ey)).
Proof.
  unfold SFdiv_core_binary.
  set (e' := Z.min _ (ex - ey)).
  set (s := ex - ey - e').
  assert (Hs : 0 <= s) by (unfold s, e'; lia).
  set (m' := match s with
             | 0 => Zpos mx
             | Zpos _ => Z.shiftl (Zpos mx) s
             | Zneg _ => 0
             end).
  assert (Em' : m' = Zpos mx * 2 ^ s).
  { unfold m'. destruct s as [|p|p]; try lia.
    now rewrite Z.shiftl_mul_pow2. }
  pose proof (Z.div_eucl_eq m' (Zpos my) ltac:(lia)) as Ediv.
  pose proof (Z.mod_pos_bound m' (Zpos my) ltac:(lia)) as Hmod.
  unfold Z.modulo in Hmod.
  destruct (Z.div_eucl m' (Zpos my)) as [q r].
  cbn [fst snd].
  assert (Hq : 0 <= q).
  { assert (0 <= m') by (rewrite Em'; apply Z.mul_nonneg_nonneg; lia).
    nia. }
  split; [exact Hq|].
  replace (IZR (Zpos mx) * bpow ex / (IZR (Zpos my) * bpow ey) * bpow (- e'))%R
    with (IZR q + IZR r / IZR (Zpos my))%R.
  - apply new_location_located; lia.
  - assert (Hmy : (0 < IZR (Zpos my))%R) by (apply IZR_lt; lia).
    assert (E : (IZR m' = IZR (Zpos mx) * bpow s)%R).
    { rewrite Em', mult_IZR, (bpow_IZR s Hs). reflexivity. }
    rewrite Ediv, plus_IZR, mult_IZR in E.
    replace (bpow ex) with (bpow s * bpow ey * bpow e')%R.
    + rewrite bpow_opp.
      pose proof (bpow_pos ey). pose proof (bpow_pos e').
      apply Rmult_eq_reg_r with (IZR (Zpos my)); [|lra].
      field_simplify; [|lra|lra]. 
      rewrite <- E. field.
    + rewrite <- !bpow_add. f_equal. unfold s. lia.
Qed.

Lemma div_rounds (x y : double) :
  pos_normal x = true -> pos_normal y = true ->
  pos_normal (x / y) = true ->
  rounds_to (B2R x / B2R y) (x / y)%float.
Proof.
  intros Hx Hy Hz.
  destruct (pos_normal_inv x Hx) as (mx & ex & Ex & _ & Bx & _).
  destruct (pos_normal_inv y Hy) as (my & ey & Ey & _ & By & _).
  destruct (SFdiv_core_located mx my ex ey) as [Hq Hl].
  rewrite Bx, By.
  eapply round_normal; [exact Hq | exact Hl | | exact Hz].
  rewrite div_spec, Ex, Ey. unfold SF64div, SFdiv. cbn [xorb].
  destruct (SFdiv_core_binary prec emax (Zpos mx) ex (Zpos my) ey)
    as [[mz ez] lz].
  reflexivity.
Qed.


(** *** Square root *)

Lemma SFsqrt_core_located (mx : positive) (ex : Z) :
  0 <= fst (fst (SFsqrt_core_binary prec emax (Zpos mx) ex)) /\
  located (sqrt (IZR (Zpos mx) * bpow ex)
           * bpow (- snd (fst (SFsqrt_core_binary prec emax (Zpos mx) ex))))
          (fst (fst (SFsqrt_core_binary prec emax (Zpos mx) ex)))
          (snd (SFsqrt_core_binary prec emax (Zpos mx) ex)).
Proof.
  unfold SFsqrt_core_binary.
  set (e' := Z.min _ (Z.div2 ex)).
  set (s := ex - 2 * e').
  assert (Hs : 0 <= s).
  { unfold s, e'. pose proof (Zdiv2_odd_eqn ex).
    destruct (Z.odd ex); lia. }
  set (m' := match s with
             | 0 => Zpos mx
             | Zpos _ => Z.shiftl (Zpos mx) s
             | Zneg _ => 0
             end).
  assert (Em' : m' = Zpos mx * 2 ^ s).
  { unfold m'. destruct s as [|p|p]; try lia.
    now rewrite Z.shiftl_mul_pow2. }
  assert (Hm' : 0 <= m') by (rewrite Em'; apply Z.mul_nonneg_nonneg; lia).
  pose proof (Z.sqrtrem_spec m' Hm') as Hsq.
  destruct (Z.sqrtrem m') as [q r]. destruct Hsq as [Eq Hr].
  cbn [fst snd].
  assert (Hq : 0 <= q) by nia.
  split; [exact Hq|].
  assert (EX : (sqrt (IZR (Zpos mx) * bpow ex) * bpow (- e')
                = sqrt (IZR q * IZR q + IZR r))%R).
  { rewrite <- (sqrt_square (bpow (- e'))) by (apply Rlt_le, bpow_pos).
    rewrite <- sqrt_mult_alt.
    - f_equal. rewrite <- mult_IZR, <- plus_IZR, <- Eq, Em', mult_IZR.
      rewrite <- (bpow_IZR s Hs).
      replace ex with (s + (e' + e')) at 1 by (unfold s; lia).
      rewrite !bpow_add, bpow_opp. field. apply Rgt_not_eq, bpow_pos.
    - apply Rmult_le_pos; [apply IZR_le; lia | apply Rlt_le, bpow_pos]. }
  rewrite EX.
  assert (Hq' : (0 <= IZR q)%R) by (apply IZR_le; lia).
  assert (Hr0 : (0 <= IZR r)%R) by (apply IZR_le; lia).
  assert (Hr2 : (IZR r <= 2 * IZR q)%R)
    by (rewrite <- mult_IZR; apply IZR_le; lia).
  destruct (Z.eqb_spec r 0) as [-> | Hr'].
  - cbn [located]. rewrite Rplus_0_r. now apply sqrt_square.
  - assert (Hrp : (1 <= IZR r)%R) by (apply IZR_le; lia).
    destruct (Z.leb_spec r q) as [Hle | Hgt]; cbn [located].
    + apply IZR_le in Hle. split.
      * rewrite <- (sqrt_square (IZR q)) at 1 by lra.
        apply sqrt_lt_1_alt. nra.
      * rewrite <- (sqrt_square (IZR q + / 2)) by lra.
        apply sqrt_lt_1_alt. nra.
    + assert (Hgt' : (IZR q + 1 <= IZR r)%R)
        by (rewrite <- plus_IZR; apply IZR_le; lia).
      split.
      * rewrite <- (sqrt_square (IZR q + / 2)) at 1 by lra.
        apply sqrt_lt_1_alt. nra.
      * rewrite <- (sqrt_square (IZR q + 1)) by lra.
        apply sqrt_lt_1_alt. nra.
Qed.

Lemma sqrt_rounds (x : double) :
  pos_normal x = true ->
  pos_normal (PrimFloat.sqrt x) = true ->
  rounds_to (sqrt (B2R x)) (PrimFloat.sqrt x).
Proof.
  intros Hx Hz.
  destruct (pos_normal_inv x Hx) as (mx & ex & Ex & _ & Bx & _).
  destruct (SFsqrt_core_located mx ex) as [Hq Hl].
  rewrite Bx.
  eapply round_normal; [exact Hq | exact Hl | | exact Hz].
  rewrite sqrt_spec, Ex. unfold SF64sqrt, SFsqrt.
  destruct (SFsqrt_core_binary prec emax (Zpos mx) ex) as [[mz ez] lz].
  reflexivity.
Qed.


(** *** Accumulating rounding errors *)

Lemma u_bounds : (0 < u < / 64)%R.
Proof.
  unfold u. split; [apply bpow_pos|].
  replace (/ 64)%R with (bpow (- (6))).
  - apply bpow_lt. lia.
  - rewrite bpow_opp, (bpow_IZR 6) by lia. reflexivity.
Qed.

Lemma pow_1mu (n : nat) : (0 < (1 - u) ^ n <= 1)%R.
Proof.
  pose proof u_bounds.
  induction n as [|n IH]; simpl; [lra|]. nra.
Qed.

Lemma bernoulli_1mu (n : nat) : (1 - INR n * u <= (1 - u) ^ n)%R.
Proof.
  pose proof u_bounds.
  induction n as [|n IH].
  - simpl. lra.
  - rewrite S_INR. simpl pow.
    pose proof (pow_1mu n). pose proof (pos_INR n). nra.
Qed.

Lemma within_refl (X : R) : (0 < X)%R -> within 0 X X.
Proof. intro H. unfold within. simpl. lra. Qed.

Lemma within_weaken (n m : nat) (X Y : R) :
  (n <= m)%nat -> within n X Y -> within m X Y.
Proof.
  intros Hnm (HX & HY & H1 & H2).
  replace m with ((m - n) + n)%nat by lia.
  unfold within. rewrite pow_add.
  pose proof (pow_1mu (m - n)). pose proof (pow_1mu n).
  repeat split; try assumption; nra.
Qed.

Lemma within_trans (n m : nat) (X Y Z : R) :
  within n X Y -> within m Y Z -> within (n + m) X Z.
Proof.
  intros (HX & HY & H1 & H2) (_ & HZ & H3 & H4).
  unfold within. rewrite pow_add.
  pose proof (pow_1mu n). pose proof (pow_1mu m).
  repeat split; try assumption.
  - apply Rle_trans with ((1 - u) ^ n * Y)%R; [|assumption].
    rewrite Rmult_assoc. apply Rmult_le_compat_l; lra.
  - apply Rle_trans with ((1 - u) ^ m * Y)%R; [|assumption].
    rewrite (Rmult_comm ((1 - u) ^ n)), Rmult_assoc.
    apply Rmult_le_compat_l; lra.
Qed.

Lemma within_mul (n m : nat) (X Y C D : R) :
  within n X Y -> within m C D -> within (n + m) (X * C) (Y * D).
Proof.
  intros (HX & HY & H1 & H2) (HC & HD & H3 & H4).
  unfold within. rewrite pow_add.
  pose proof (pow_1mu n). pose proof (pow_1mu m).
  repeat split; try (apply Rmult_lt_0_compat; assumption).
  - replace ((1 - u) ^ n * (1 - u) ^ m * (Y * D))%R
      with (((1 - u) ^ n * Y) * ((1 - u) ^ m * D))%R by ring.
    apply Rmult_le_compat; try assumption; apply Rmult_le_pos; lra.
  - replace ((1 - u) ^ n * (1 - u) ^ m * (X * C))%R
      with (((1 - u) ^ n * X) * ((1 - u) ^ m * C))%R by ring.
    apply Rmult_le_compat; try assumption; apply Rmult_le_pos; lra.
Qed.

Lemma within_inv (n : nat) (X Y : R) : within n X Y -> within n (/ X) (/ Y).
Proof.
  intros (HX & HY & H1 & H2).
  pose proof (pow_1mu n).
  assert (HiX := Rinv_0_lt_compat X HX).
  assert (HiY := Rinv_0_lt_compat Y HY).
  unfold within. repeat split; try assumption.
  - apply Rmult_le_reg_r with (X * Y)%R; [apply Rmult_lt_0_compat; lra|].
    replace ((1 - u) ^ n * / Y * (X * Y))%R with ((1 - u) ^ n * X)%R
      by (field; lra).
    replace (/ X * (X * Y))%R with Y by (field; lra). assumption.
  - apply Rmult_le_reg_r with (X * Y)%R; [apply Rmult_lt_0_compat; lra|].
    replace ((1 - u) ^ n * / X * (X * Y))%R with ((1 - u) ^ n * Y)%R
      by (field; lra).
    replace (/ Y * (X * Y))%R with X by (field; lra). assumption.
Qed.

Lemma within_div (n m : nat) (X Y C D : R) :
  within n X Y -> within m C D -> within (n + m) (X / C) (Y / D).
Proof.
  intros H1 H2. apply within_mul; [exact H1 | now apply within_inv].
Qed.

Lemma within_sqrt (n : nat) (X Y : R) :
  within (n + n) X Y -> within n (sqrt X) (sqrt Y).
Proof.
  intros (HX & HY & H1 & H2). rewrite pow_add in H1, H2.
  pose proof (pow_1mu n) as Ha.
  unfold within. repeat split; try (apply sqrt_lt_R0; assumption).
  - rewrite <- (sqrt_square ((1 - u) ^ n)) by lra.
    rewrite <- sqrt_mult_alt by nra. apply sqrt_le_1_alt. assumption.
  - rewrite <- (sqrt_square ((1 - u) ^ n)) by lra.
    rewrite <- sqrt_mult_alt by nra. apply sqrt_le_1_alt. assumption.
Qed.

Lemma Rabs_le_bounds (a b : R) : (Rabs a <= b -> - b <= a <= b)%R.
Proof. unfold Rabs. destruct (Rcase_abs a); lra. Qed.

Lemma rounds_within (X : R) (z : double) :
  (0 < X)%R -> rounds_to X z -> within 1 X (B2R z).
Proof.
  intros HX [Hz H]. apply Rabs_le_bounds in H.
  pose proof u_bounds.
  unfold within. simpl pow. rewrite Rmult_1_r.
  repeat split; try assumption; nra.
Qed.

Lemma within_bound (n : nat) (X Y : R) :
  (n <= 7)%nat -> within n X Y ->
  (Rabs (Y - X) <= bpow (-50) * X)%R.
Proof.
  intros Hn H. apply (within_weaken n 7) in H; [|exact Hn].
  destruct H as (HX & HY & H1 & H2).
  pose proof u_bounds as Hu.
  pose proof (bernoulli_1mu 7) as Hb. simpl INR in Hb.
  pose proof (pow_1mu 7) as Ha.
  assert (E : bpow (-50) = (8 * u)%R).
  { unfold u. replace (-50) with (3 + -53) by lia.
    rewrite bpow_add, (bpow_IZR 3) by lia. reflexivity. }
  rewrite E. apply Rabs_le. split.
  - nra.
  - assert (1 <= (1 + 8 * u) * (1 - u) ^ 7)%R by nra.
    nra.
Qed.

(** *** The round trip through the energy *)

Lemma B2R_two : B2R 2 = 2%R.
Proof.
  unfold B2R. change (Prim2SF 2) with (S754_finite false (2 ^ 52) (-51)).
  cbn [SF2R cond_Zopp]. change (-51) with (- (51)).
  rewrite bpow_opp, (bpow_IZR 51) by lia.
  change (2 ^ 51) with 2251799813685248.
  change (Zpos (2 ^ 52)) with 4503599627370496. lra.
Qed.

Lemma pos_normal_pos (x : double) : pos_normal x = true -> (0 < B2R x)%R.
Proof.
  intro H. destruct (pos_normal_inv x H) as (m & e & _ & _ & _ & Hp).
  exact Hp.
Qed.

Lemma mul_within (x y : double) (n m : nat) (X Y : R) :
  pos_normal x = true -> pos_normal y = true ->
  pos_normal (x * y) = true ->
  within n X (B2R x) -> within m Y (B2R y) ->
  within (S (n + m)) (X * Y) (B2R (x * y)).
Proof.
  intros Hx Hy Hz WX WY.
  replace (S (n + m)) with ((n + m) + 1)%nat by lia.
  apply within_trans with (B2R x * B2R y)%R; [now apply within_mul|].
  apply rounds_within; [| now apply mul_rounds].
  apply Rmult_lt_0_compat; now apply pos_normal_pos.
Qed.

Lemma div_within (x y : double) (n m : nat) (X Y : R) :
  pos_normal x = true -> pos_normal y = true ->
  pos_normal (x / y) = true ->
  within n X (B2R x) -> within m Y (B2R y) ->
  within (S (n + m)) (X / Y) (B2R (x / y)).
Proof.
  intros Hx Hy Hz WX WY.
  replace (S (n + m)) with ((n + m) + 1)%nat by lia.
  apply within_trans with (B2R x / B2R y)%R; [now apply within_div|].
  apply rounds_within; [| now apply div_rounds].
  apply Rdiv_lt_0_compat; now apply pos_normal_pos.
Qed.

Lemma sqrt_within (x : double) (n : nat) (X : R) :
  pos_normal x = true ->
  pos_normal (PrimFloat.sqrt x) = true ->
  within (n + n) X (B2R x) ->
  within (S n) (sqrt X) (B2R (PrimFloat.sqrt x)).
Proof.
  intros Hx Hz WX.
  replace (S n) with (n + 1)%nat by lia.
  apply within_trans with (sqrt (B2R x)); [now apply within_sqrt|].
  apply rounds_within; [| now apply sqrt_rounds].
  apply sqrt_lt_R0. now apply pos_normal_pos.
Qed.

Lemma within_exact (x : double) :
  pos_normal x = true -> within 0 (B2R x) (B2R x).
Proof. intro H. apply within_refl. now apply pos_normal_pos. Qed.

Lemma pos_normal_two : pos_normal 2 = true.
Proof. reflexivity. Qed.

Lemma within_two : within 0 2 (B2R 2).
Proof. rewrite B2R_two. apply within_refl. lra. Qed.

Ltac split_normal H :=
  repeat match type of H with
  | (_ && _)%bool = true =>
      let H1 := fresh "N" in
      apply andb_prop in H; destruct H as [H1 H]
  end.

(** On doubles: when the mass, the velocity, K and every intermediate
    result are positive normal numbers (nothing overflows, nothing
    underflows), the mass and the velocity that come back from the energy
    are within a relative error of 2^-50 of the mass and of the velocity. *)
Lemma round_trip_within_tolerance (K mass velocity : double) (si : Z) :
  forallb pos_normal
    (mass :: velocity :: K :: round_trip_steps K mass velocity si) = true ->
  (Rabs (B2R (get_mass K velocity (get_energy K mass velocity si) si)
         - B2R mass) <= bpow (-50) * B2R mass)%R /\
  (Rabs (B2R (get_velocity K mass (get_energy K mass velocity si) si)
         - B2R velocity) <= bpow (-50) * B2R velocity)%R.
Proof.
  unfold round_trip_steps, get_mass, get_velocity, get_energy,
         Formula.get_mass, Formula.get_velocity, Formula.get_energy.
  destruct (si =? 1); cbn [forallb]; intro H; split_normal H.
  - (* metric *)
    pose proof (within_exact mass N) as Wm.
    pose proof (within_exact velocity N0) as Wv.
    pose proof (within_exact K N1) as Wk.
    pose proof (pos_normal_pos _ N). pose proof (pos_normal_pos _ N0).
    pose proof (pos_normal_pos _ N1). pose proof (pos_normal_pos _ N2).
    pose proof (div_within _ _ _ _ _ _ N pos_normal_two N3 Wm within_two)
      as Wh.
    split.
    + (* the same double velocity * velocity divides what it multiplied *)
      pose proof (within_exact _ N2) as Wvv.
      pose proof (mul_within _ _ _ _ _ _ N3 N2 N4 Wh Wvv) as Wp.
      pose proof (div_within _ _ _ _ _ _ N4 N1 N5 Wp Wk) as We.
      pose proof (mul_within _ _ _ _ _ _ N5 pos_normal_two N6 We within_two)
        as Wt.
      pose proof (div_within _ _ _ _ _ _ N6 N2 N7 Wt Wvv) as Wa.
      pose proof (mul_within _ _ _ _ _ _ N7 N1 N8 Wa Wk) as Wm'.
      cbn [Nat.add] in Wm'.
      apply (within_bound 6); [lia|].
      replace (B2R mass)
        with (B2R mass / 2 * B2R (velocity * velocity) / B2R K * 2
              / B2R (velocity * velocity) * B2R K)%R at 1
        by (field; lra).
      exact Wm'.
    + pose proof (mul_within _ _ _ _ _ _ N0 N0 N2 Wv Wv) as Wvv.
      pose proof (mul_within _ _ _ _ _ _ N3 N2 N4 Wh Wvv) as Wp.
      pose proof (div_within _ _ _ _ _ _ N4 N1 N5 Wp Wk) as We.
      pose proof (mul_within _ _ _ _ _ _ N5 pos_normal_two N6 We within_two)
        as Wt.
      pose proof (div_within _ _ _ _ _ _ N6 N N9 Wt Wm) as Wb.
      pose proof (mul_within _ _ _ _ _ _ N9 N1 N10 Wb Wk) as Wc.
      cbn [Nat.add] in Wc.
      apply (within_weaken _ (4 + 4)) in Wc; [|lia].
      pose proof (sqrt_within _ _ _ N10 N11 Wc) as Wv'.
      apply (within_bound 5); [lia|].
      replace (B2R velocity)
        with (sqrt (B2R mass / 2 * (B2R velocity * B2R velocity) / B2R K * 2
                    / B2R mass * B2R K))%R at 1.
      * exact Wv'.
      * transitivity (sqrt (B2R velocity * B2R velocity));
          [f_equal; field; lra | apply sqrt_square; lra].
  - (* imperial *)
    pose proof (within_exact mass N) as Wm.
    pose proof (within_exact velocity N0) as Wv.
    pose proof (within_exact K N1) as Wk.
    pose proof (pos_normal_pos _ N). pose proof (pos_normal_pos _ N0).
    pose proof (pos_normal_pos _ N1). pose proof (pos_normal_pos _ N2).
    split.
    + pose proof (within_exact _ N2) as Wvv.
      pose proof (mul_within _ _ _ _ _ _ N N2 N3 Wm Wvv) as Wp.
      pose proof (div_within _ _ _ _ _ _ N3 N1 N4 Wp Wk) as We.
      pose proof (div_within _ _ _ _ _ _ N4 N2 N5 We Wvv) as Wa.
      pose proof (mul_within _ _ _ _ _ _ N5 N1 N6 Wa Wk) as Wm'.
      cbn [Nat.add] in Wm'.
      apply (within_bound 4); [lia|].
      replace (B2R mass)
        with (B2R mass * B2R (velocity * velocity) / B2R K
              / B2R (velocity * velocity) * B2R K)%R at 1
        by (field; lra).
      exact Wm'.
    + pose proof (mul_within _ _ _ _ _ _ N0 N0 N2 Wv Wv) as Wvv.
      pose proof (mul_within _ _ _ _ _ _ N N2 N3 Wm Wvv) as Wp.
      pose proof (div_within _ _ _ _ _ _ N3 N1 N4 Wp Wk) as We.
      pose proof (div_within _ _ _ _ _ _ N4 N N7 We Wm) as Wb.
      pose proof (mul_within _ _ _ _ _ _ N7 N1 N8 Wb Wk) as Wc.
      cbn [Nat.add] in Wc.
      apply (within_weaken _ (3 + 3)) in Wc; [|lia].
      pose proof (sqrt_within _ _ _ N8 N9 Wc) as Wv'.
      apply (within_bound 4); [lia|].
      replace (B2R velocity)
        with (sqrt (B2R mass * (B2R velocity * B2R velocity) / B2R K
                    / B2R mass * B2R K))%R at 1.
      * exact Wv'.
      * transitivity (sqrt (B2R velocity * B2R velocity));
          [f_equal; field; lra | apply sqrt_square; lra].
Qed.

(** C3 (amended). For all positive doubles mass, velocity and K such that
    they and every intermediate result are normal numbers (no overflow, no
    underflow), the mass that [get_mass] computes from the velocity and the
    energy of [get_energy] is within a relative error of 2^-50 of the mass,
    and the velocity that [get_velocity] computes from the mass and that
    energy is within 2^-50 of the velocity, under imperial and under metric
    units.  In exact real arithmetic both come back unchanged. *)
Theorem energy_round_trip (K mass velocity : double) (si : Z) :
  forallb pos_normal
    (mass :: velocity :: K :: round_trip_steps K mass velocity si) = true ->
  (Rabs (B2R (get_mass K velocity (get_energy K mass velocity si) si)
         - B2R mass) <= bpow (-50) * B2R mass)%R /\
  (Rabs (B2R (get_velocity K mass (get_energy K mass velocity si) si)
         - B2R velocity) <= bpow (-50) * B2R velocity)%R /\
  (forall k m v : R,
     (0 < k)%R -> (0 < m)%R -> (0 < v)%R ->
     Exact.get_mass k v (Exact.get_energy k m v si) si = m /\
     Exact.get_velocity k m (Exact.get_energy k m v si) si = v).
Proof.
  intro H.
  destruct (round_trip_within_tolerance K mass velocity si H) as [Hm Hv].
  split; [exact Hm | split; [exact Hv|]].
  intros k m v. apply exact_round_trip.
Qed.

Lemma energy_round_trip_witness :
  (Rabs (B2R (get_mass 450240 900 (get_energy 450240 230 900 (-1)) (-1))
         - B2R 230) <= bpow (-50) * B2R 230)%R /\
  (Rabs (B2R (get_velocity 1000 15 (get_energy 1000 15 270 1) 1)
         - B2R 270) <= bpow (-50) * B2R 270)%R.
Proof.
  split.
  - exact (proj1 (energy_round_trip 450240 230 900 (-1) eq_refl)).
  - exact (proj1 (proj2 (energy_round_trip 1000 15 270 1 eq_refl))).
Defined.

Lemma nan_leb (x : double) : (nan <=? x)%float = false.
Proof.
  rewrite leb_spec. change (Prim2SF nan) with S754_nan.
  unfold SFleb, SFcompare. reflexivity.
Qed.

(** C3, as stated, fails on doubles: for the positive mass 230, velocity
    1e200 and K = 450240 (or 1000 under metric units) the square of the
    velocity overflows, the energy is infinite, and the mass that comes
    back is NaN, within no tolerance of 230; the velocity that comes back
    is infinite. *)
Lemma round_trip_claim_counterexample :
  (0 <? 230)%float = true /\ (0 <? 1e200)%float = true /\
  (0 <? 450240)%float = true /\
  is_nan (get_mass 450240 1e200 (get_energy 450240 230 1e200 (-1)) (-1))
    = true /\
  is_nan (get_mass 1000 1e200 (get_energy 1000 230 1e200 1) 1) = true /\
  (forall tol : double,
     close_to tol
       (get_mass 450240 1e200 (get_energy 450240 230 1e200 (-1)) (-1))
       230 = false) /\
  get_velocity 450240 230 (get_energy 450240 230 1e200 (-1)) (-1) = infinity.
Proof.
  repeat split; try reflexivity.
  intro tol. unfold close_to.
  change (abs (get_mass 450240 1e200 (get_energy 450240 230 1e200 (-1)) (-1)
               - 230))%float with nan.
  apply nan_leb.
Qed.

(** On the documented examples the doubles come back to within one unit in
    the last place. *)
Example round_trip_on_doubles :
  get_mass 450240 900 (get_energy 450240 230 900 (-1)) (-1)
    = 229.99999999999997%float /\
  get_velocity 450240 230 (get_energy 450240 230 900 (-1)) (-1)
    = 900%float /\
  get_mass 1000 270 (get_energy 1000 15 270 1) 1 = 15%float /\
  get_velocity 1000 15 (get_energy 1000 15 270 1) 1 = 270%float /\
  close_to 0x1p-52
    (get_mass 450240 900 (get_energy 450240 230 900 (-1)) (-1)) 230 = true.
Proof. repeat split; reflexivity. Qed.

(** ** The models at work *)

Example getopt_scan_examples :
  getopt_scan false ["-sq"; "230"; "-k5"; "900"; "-k"; "7"; "--"; "-h"] =
    ([Found "s" None; Found "q" None; Found "k" (Some "5");
      Found "k" (Some "7")],
     ["230"; "900"; "-h"]) /\
  getopt_scan true ["-sq"; "230"; "-k5"; "900"] =
    ([Found "s" None; Found "q" None], ["230"; "-k5"; "900"]) /\
  getopt_scan false ["-x"; "-k"] = ([Unknown "x"; Missing "k"], []).
Proof. repeat split; reflexivity. Qed.

Example atof_examples :
  atof "230" = 230%float /\ atof ".45" = 0.45%float /\
  atof "1e200" = 1e200%float /\ atof " -1.5e3x" = (-1500)%float /\
  atof "12abc" = 12%float /\ atof "abc" = 0%float /\
  atof "0x1.8p1" = 3%float /\ atof "-inf" = neg_infinity /\
  atof "1e400" = infinity /\ atof EmptyString = 0%float.
Proof. repeat split; reflexivity. Qed.

Example fmt_f_examples :
  fmt_f 0 0.5 = "0" /\ fmt_f 0 1.5 = "2" /\ fmt_f 0 2.5 = "2" /\
  fmt_f 2 0.125 = "0.12" /\ fmt_f 2 413.78 = "413.78" /\
  fmt_f 3 0.45 = "0.450" /\ fmt_f 2 (-0.001) = "-0.00" /\
  fmt_f 0 infinity = "inf" /\ fmt_f 2 nan = "nan".
Proof. repeat split; reflexivity. Qed.

(** The invocations that [print_examples] documents. *)
Example documented_examples :
  stdout_of (trace (snd (main false ["muzz"; "230"; "900"] initial_world)))
    = cat ["230 gr @ 900 ft/s = 414 lbf"; LF] /\
  stdout_of (trace (snd (main false ["muzz"; "-s"; "15"; "270"]
                              initial_world)))
    = cat ["15.00 g @ 270.00 m/s = 547 J"; LF] /\
  stdout_of (trace (snd (main false ["muzz"; "-qp"; "230"; "900"]
                              initial_world)))
    = cat ["413.78"; LF] /\
  stdout_of (trace (snd (main false ["muzz"; "-mq"; "900"; "414"]
                              initial_world)))
    = cat ["230"; LF] /\
  stdout_of (trace (snd (main false ["muzz"; "-t"; "230"; "860"; ".45"]
                              initial_world)))
    = cat ["230 gr @ 860 ft/s (0.450"; DQUOTE; " diameter) = 12.72 TKOF"; LF]
  /\
  stdout_of (trace (snd (main false ["muzz"; "-ts"; "15"; "255"; "11.6"]
                              initial_world)))
    = cat ["15.00 g @ 255.00 m/s (11.60 mm diameter) = 12.68 TKOF"; LF].
Proof. repeat split; reflexivity. Qed.

(** * Further properties *)

(** ** Every way through main *)

Lemma option_loop_next_no_info (rs : list getopt_ret) (o : list Z) (vw : Z)
    (w : world) (o' : list Z) (vw' : Z) (w' : world) :
  List.length o = 5%nat ->
  option_loop rs o vw w = (Next o' vw', w') -> first_info rs = None.
Proof.
  intros Ho E. destruct (first_info rs) as [c|] eqn:F; [|reflexivity].
  destruct (option_loop_info rs o vw w c Ho F) as (w1 & E1 & _).
  rewrite E1 in E. discriminate.
Qed.

(** The three ways through [main]: an informational text, an error exit,
    or a formula. *)
Lemma main_cases (posix : bool) (argv : list string) (w : world) :
  let rs := fst (getopt_scan posix (tl argv)) in
  let ops := snd (getopt_scan posix (tl argv)) in
  (exists c w1,
     first_info rs = Some c /\
     main posix argv w = (0, info_text c w1) /\
     stdout_of (trace w1) = stdout_of (trace w) /\
     stderr_of (trace w1) = stderr_of (trace w)) \/
  (exists w1,
     first_info rs = None /\ too_few rs ops = true /\
     main posix argv w =
       (1, {| K := K w1;
              trace := (trace w1 ++
                        usage_error (count_error (List.length argv)
                                                 (List.length ops)))%list |}) /\
     K w1 = custom_of rs (K w) /\
     stdout_of (trace w1) = stdout_of (trace w) /\
     stderr_of (trace w1) = stderr_of (trace w)) \/
  (exists o w1 p1 p2 rest,
     first_info rs = None /\ too_few rs ops = false /\
     ops = p1 :: p2 :: rest /\
     parsed_as rs w o w1 /\
     main posix argv w = (0, formula_run rs p1 p2 rest o w1)).
Proof.
  intros rs ops. subst rs ops.
  destruct (first_info (fst (getopt_scan posix (tl argv)))) as [c|] eqn:F.
  - left. destruct argv as [|a [|b args]]; try discriminate F.
    cbn [tl] in *.
    destruct (option_loop_info _ init_options PARAM_ENERGY w c
                init_options_length F) as (w1 & E & _ & S1 & S2).
    exists c, w1. rewrite main_unfold, E. auto.
  - right. destruct argv as [|a [|b args]].
    + left. exists w. rewrite main_too_few by (simpl; lia).
      destruct posix; repeat split; reflexivity.
    + left. exists w. rewrite main_too_few by (simpl; lia).
      destruct posix; repeat split; reflexivity.
    + cbn [tl] in *.
      destruct (option_loop_parsed _ w F) as (o & w1 & P).
      pose proof P as (E & _ & _ & _ & P4 & _ & P6 & S1 & S2).
      unfold too_few.
      destruct (snd (getopt_scan posix (b :: args)))
        as [|p1 [|p2 [|p3 ops]]] eqn:Hops.
      * left. exists w1. rewrite main_unfold, E, Hops, run_no_operand.
        repeat split; auto.
      * left. exists w1. rewrite main_unfold, E, Hops, run_one_operand.
        repeat split; auto.
      * destruct (tkof_of_cases (fst (getopt_scan posix (b :: args))) (-1))
          as [Ht | Ht];
          fold (tkof_of (fst (getopt_scan posix (b :: args)))) in Ht.
        -- right. exists o, w1, p1, p2, []. rewrite Ht.
           split; [reflexivity|]. split; [reflexivity|].
           split; [reflexivity|]. split; [exact P|].
           apply main_formula_run; cbn [tl]; auto.
           rewrite Ht. discriminate.
        -- left. exists w1. rewrite Ht in *.
           rewrite main_unfold, E, Hops,
             (run_knockout_two_operands _ _ _ _ _ P4).
           repeat split; auto.
      * right. exists o, w1, p1, p2, (p3 :: ops).
        split; [reflexivity|]. split; [reflexivity|].
        split; [reflexivity|]. split; [exact P|].
        apply main_formula_run; cbn [tl]; auto. discriminate.
Qed.

(** X1. The exit status of every invocation: 0 when getopt returns an
    informational flag; otherwise 1 when fewer than two operands are given,
    or exactly two in knockout mode, and 0 in every other case. *)
Theorem exit_status (posix : bool) (argv : list string) (w : world) :
  fst (main posix argv w) =
    match first_info (fst (getopt_scan posix (tl argv))) with
    | Some _ => 0
    | None =>
        if too_few (fst (getopt_scan posix (tl argv)))
                   (snd (getopt_scan posix (tl argv)))
        then 1 else 0
    end.
Proof.
  destruct (main_cases posix argv w)
    as [(c & w1 & F & E & _) | [(w1 & F & T & E & _)
       | (o & w1 & p1 & p2 & rest & F & T & _ & _ & E)]];
    rewrite F, E; try rewrite T; reflexivity.
Qed.

Lemma stdout_of_usage_error (message : list string) :
  stdout_of (usage_error message) = EmptyString.
Proof.
  unfold usage_error. rewrite stdout_of_app.
  induction message as [|m ms IH]; [reflexivity|exact IH].
Qed.

(** X2. Normal output and errors never mix: an invocation that returns 0
    leaves the error stream as it was, one that returns 1 leaves the
    standard output as it was, and no invocation returns anything else. *)
Theorem streams_are_kept_apart (posix : bool) (argv : list string)
    (w : world) :
  (fst (main posix argv w) = 0 /\
   stderr_of (trace (snd (main posix argv w))) = stderr_of (trace w)) \/
  (fst (main posix argv w) = 1 /\
   stdout_of (trace (snd (main posix argv w))) = stdout_of (trace w)).
Proof.
  destruct (main_cases posix argv w)
    as [(c & w1 & F & E & S1 & S2) | [(w1 & F & T & E & _ & S1 & S2)
       | (o & w1 & p1 & p2 & rest & F & T & Hops & P & E)]]; rewrite E;
    cbn [fst snd].
  - left. split; [reflexivity|].
    rewrite (info_text_writes c w1). cbn [trace].
    rewrite stderr_of_app, S2.
    replace (stderr_of (trace (info_text c initial_world))) with EmptyString.
    + apply string_app_nil_r.
    + destruct (option_loop_info _ init_options PARAM_ENERGY w c
                  init_options_length F) as (_ & _ & Hc & _).
      destruct c as [[] [] [] [] [] [] [] []]; try discriminate Hc;
        reflexivity.
  - right. cbn [trace].
    rewrite stdout_of_app, S1, stdout_of_usage_error, string_app_nil_r.
    split; reflexivity.
  - left. split; [reflexivity|].
    destruct (formula_run_writes (fst (getopt_scan posix (tl argv)))
                p1 p2 rest o w1) as (t & Wt & St).
    rewrite Wt, stderr_of_app, St, string_app_nil_r. apply P.
Qed.

(** ** The options array *)

Lemma option_loop_after_flags (rs : list getopt_ret) (o : list Z) (vw : Z)
    (w : world) (o' : list Z) (vw' : Z) (w' : world) :
  List.length o = 5%nat ->
  option_loop rs o vw w = (Next o' vw', w') ->
  after_flags rs o vw w o' vw' w'.
Proof.
  intros Ho E.
  pose proof (option_loop_next_no_info rs o vw w o' vw' w' Ho E) as F.
  destruct (option_loop_next rs o vw w Ho F) as (o1 & vw1 & w1 & E1 & A).
  rewrite E1 in E. injection E as <- <- <-. exact A.
Qed.

Lemma flag_value_cases (table : ascii -> option Z) (P : Z -> Prop) :
  (forall c a, table c = Some a -> P a) ->
  forall r a, flag_value table r = Some a -> P a.
Proof.
  intros H [c x|c|c] a E; try discriminate E. exact (H c a E).
Qed.

(** X3. The option loop keeps the options array and [valueWanted] within
    the values the rest of the program tests for: the array keeps its five
    slots, the verbose, unit, precision and knockout slots hold 1 or -1, the
    constant slot holds -1, 0, 1 or 2, and [valueWanted] names the mass, the
    velocity or the energy, so that the default case of the switch in
    [result] is never taken from [main]. *)
Theorem options_stay_valid (rs : list getopt_ret) (o : list Z) (vw : Z)
    (w : world) (o' : list Z) (vw' : Z) (w' : world) :
  valid_state o vw ->
  option_loop rs o vw w = (Next o' vw', w') ->
  valid_state o' vw'.
Proof.
  intros (Ho & V1 & V2 & V3 & V4 & V5 & V6) E.
  destruct (option_loop_after_flags rs o vw w o' vw' w' Ho E)
    as (L & A1 & A2 & A3 & A4 & A5 & A6 & _).
  unfold valid_state.
  rewrite A1, A2, A3, A4, A5, A6.
  split; [exact L|].
  repeat split;
    (apply last_wins_cases; [|assumption]);
    apply flag_value_cases; intros c a Ec;
    destruct c as [[] [] [] [] [] [] [] []]; try discriminate Ec;
    injection Ec as <-; auto.
Qed.

Lemma options_stay_valid_witness :
  valid_state init_options PARAM_ENERGY /\
  valid_state [-1; 1; 1; -1; 0] PARAM_VELOCITY.
Proof.
  assert (V : valid_state init_options PARAM_ENERGY).
  { unfold valid_state. cbn. repeat split; auto. }
  split; [exact V|].
  apply (options_stay_valid
           [Found "s"%char None; Found "q"%char None; Unknown "x"%char;
            Found "k"%char (Some "500"); Found "v"%char None;
            Found "p"%char None]
           init_options PARAM_ENERGY initial_world
           [-1; 1; 1; -1; 0] PARAM_VELOCITY
           {| K := 500%float;
              trace := [GetoptDiag (Unknown "x"%char)] |} V).
  vm_compute. reflexivity.
Defined.

(** ** The command line matters only through what it selects *)









(** ** The verbose lines *)

Lemma standard_result_exact (wanted : Z) (p1 p2 : string) (o : list Z)
    (w : world) :
  wanted = PARAM_MASS \/ wanted = PARAM_VELOCITY \/ wanted = PARAM_ENERGY ->
  opt_get o OPT_VERBOSE = 1 ->
  opt_get o OPT_PRECISE = 1 ->
  (let '(mass, velocity, energy) := standard_inputs wanted p1 p2 in
   result mass velocity energy wanted o w) =
  let k := expected_K (opt_get o OPT_K) (opt_get o OPT_SI) (K w) in
  {| K := k;
     trace := (trace w ++
               [Stdout (let '(mass, velocity, energy) :=
                          displayed k wanted (opt_get o OPT_SI) p1 p2 in
                        exact_line (opt_get o OPT_SI)
                                   mass velocity energy)])%list |}.
Proof.
  intros Hw Hv Hp. cbv zeta.
  destruct Hw as [-> | [-> | ->]];
    unfold standard_inputs, displayed, standard_value, exact_line,
           result, solve, verbose_result;
    rewrite resolve_K_spec, Hv, Hp;
    cbn [K trace];
    change (1 =? 1) with true; cbn [negb];
    param_eqb;
    destruct (opt_get o OPT_SI =? 1); reflexivity.
Qed.

(** X5. In verbose, exact mode (-p without -q or -S) the line of the
    standard formula shows the mass, the velocity and the energy each with
    two decimals and no rounding to an integer, whichever of the three is
    solved for, with the units g, m/s and J under metric units and gr, ft/s
    and lbf under imperial units; nothing else is written. *)
Theorem verbose_exact_display
    (posix : bool) (argv : list string) (w : world)
    (p1 p2 : string) (rest : list string) :
  let rs := fst (getopt_scan posix (tl argv)) in
  snd (getopt_scan posix (tl argv)) = p1 :: p2 :: rest ->
  first_info rs = None ->
  tkof_of rs = -1 ->
  verbose_of rs = 1 ->
  precise_of rs = 1 ->
  stdout_of (trace (snd (main posix argv w))) =
    stdout_of (trace w) ++
    (let '(mass, velocity, energy) :=
       displayed (expected_K (k_of rs) (si_of rs) (custom_of rs (K w)))
                 (wanted_of rs) (si_of rs) p1 p2 in
     exact_line (si_of rs) mass velocity energy).
Proof.
  intros rs Hops Hinfo Ht Hv Hp. subst rs.
  destruct (option_loop_parsed _ w Hinfo) as (o & w1 & P).
  rewrite (main_formula_run posix argv w p1 p2 rest o w1 Hops);
    [| rewrite Ht; discriminate | exact P].
  destruct P as (_ & P1 & P2 & P3 & P4 & P5 & P6 & S1 & _).
  rewrite Hv in P1. rewrite Hp in P3.
  cbn [snd]. unfold formula_run. rewrite Ht. change (-1 =? 1) with false.
  cbv iota.
  rewrite (standard_result_exact _ p1 p2 o w1 (wanted_of_cases _) P1 P3).
  cbn [trace]. rewrite stdout_of_app, S1, P2, P5, P6.
  cbn [stdout_of]. rewrite string_app_nil_r. reflexivity.
Qed.

Lemma verbose_exact_display_witness :
  stdout_of (trace (snd (main false ["muzz"; "-p"; "-v"; "230"; "414"]
                              initial_world))) =
    cat ["230.00 gr @ 900.24 ft/s = 414.00 lbf"; LF].
Proof.
  exact (verbose_exact_display false ["muzz"; "-p"; "-v"; "230"; "414"]
           initial_world "230" "414" [] eq_refl eq_refl eq_refl eq_refl
           eq_refl).
Defined.

Lemma tkof_verbose (mass velocity diameter : double) (o : list Z)
    (w : world) :
  opt_get o OPT_VERBOSE = 1 ->
  stdout_of (trace (tkof mass velocity diameter o w)) =
    stdout_of (trace w) ++
    knockout_line (opt_get o OPT_SI) (opt_get o OPT_PRECISE)
      mass velocity diameter
      (if opt_get o OPT_SI =? 1
       then (mass * velocity * diameter / 3500)%float
       else (mass * velocity * diameter / 7000)%float).
Proof.
  intro Hv. unfold tkof, knockout_line. rewrite Hv.
  change (1 =? 1) with true. cbv iota.
  destruct (opt_get o OPT_SI =? 1); [| destruct (opt_get o OPT_PRECISE =? 1)];
    unfold seq, printf, fprintf, emit; cbn [K trace];
    rewrite <- ?app_assoc, stdout_of_app; cbn [stdout_of app cat];
    rewrite ?string_app_nil_r, ?string_app_assoc; reflexivity.
Qed.

(** X6. In verbose mode the knockout formula writes one line with the
    mass, the velocity, the diameter and the score.  Under metric units all
    four have two decimals, with or without -p.  Under imperial units the
    diameter has three decimals and the score two; the mass and the velocity
    have two decimals with -p and are rounded to integers without it.  The
    score itself is never rounded to an integer. *)
Theorem knockout_verbose_display
    (posix : bool) (argv : list string) (w : world)
    (p1 p2 p3 : string) (rest : list string) :
  let rs := fst (getopt_scan posix (tl argv)) in
  snd (getopt_scan posix (tl argv)) = p1 :: p2 :: p3 :: rest ->
  first_info rs = None ->
  tkof_of rs = 1 ->
  verbose_of rs = 1 ->
  stdout_of (trace (snd (main posix argv w))) =
    stdout_of (trace w) ++
    knockout_line (si_of rs) (precise_of rs) (atof p1) (atof p2) (atof p3)
      (knockout_value (si_of rs) p1 p2 p3).
Proof.
  intros rs Hops Hinfo Ht Hv. subst rs.
  destruct (option_loop_parsed _ w Hinfo) as (o & w1 & P).
  rewrite (main_formula_run posix argv w p1 p2 (p3 :: rest) o w1 Hops);
    [| discriminate | exact P].
  destruct P as (_ & P1 & P2 & P3 & P4 & P5 & P6 & S1 & _).
  rewrite Hv in P1.
  cbn [snd]. unfold formula_run. rewrite Ht. change (1 =? 1) with true.
  cbv iota. cbn [hd].
  rewrite (tkof_verbose _ _ _ o w1 P1), S1, P2, P3. reflexivity.
Qed.

Lemma knockout_verbose_display_witness :
  stdout_of (trace (snd (main false ["muzz"; "-t"; "500"; "2150"; ".458"]
                              initial_world))) =
    cat ["500 gr @ 2150 ft/s (0.458"; DQUOTE; " diameter) = 70.34 TKOF"; LF].
Proof.
  exact (knockout_verbose_display false
           ["muzz"; "-t"; "500"; "2150"; ".458"]
           initial_world "500" "2150" ".458" [] eq_refl eq_refl eq_refl
           eq_refl).
Defined.

(** ** Accuracy of the formulas on doubles *)

Ltac unfold_formulas :=
  unfold energy_steps, mass_steps, velocity_steps,
         get_mass, get_velocity, get_energy,
         Exact.get_mass, Exact.get_velocity, Exact.get_energy,
         Formula.get_mass, Formula.get_velocity, Formula.get_energy.

(** X7. [get_energy] on doubles is accurate: when K, the mass, the
    velocity and every intermediate result are positive normal numbers, the
    energy is within a relative error of 2^-50 of the energy that the
    formula gives in exact arithmetic, mass * velocity^2 / K under imperial
    units and (mass / 2) * velocity^2 / K under metric units. *)
Theorem get_energy_accurate (K mass velocity : double) (si : Z) :
  forallb pos_normal
    (K :: mass :: velocity :: energy_steps K mass velocity si) = true ->
  (Rabs (B2R (get_energy K mass velocity si)
         - Exact.get_energy (B2R K) (B2R mass) (B2R velocity) si)
   <= bpow (-50) * Exact.get_energy (B2R K) (B2R mass) (B2R velocity) si)%R.
Proof.
  unfold_formulas.
  destruct (si =? 1); cbn [forallb]; intro H; split_normal H.
  - pose proof (within_exact K N) as Wk.
    pose proof (within_exact mass N0) as Wm.
    pose proof (within_exact velocity N1) as Wv.
    pose proof (div_within _ _ _ _ _ _ N0 pos_normal_two N2 Wm within_two)
      as Wh.
    pose proof (mul_within _ _ _ _ _ _ N1 N1 N3 Wv Wv) as Wvv.
    pose proof (mul_within _ _ _ _ _ _ N2 N3 N4 Wh Wvv) as Wp.
    pose proof (div_within _ _ _ _ _ _ N4 N N5 Wp Wk) as We.
    cbn [Nat.add] in We.
    apply (within_bound 4); [lia | exact We].
  - pose proof (within_exact K N) as Wk.
    pose proof (within_exact mass N0) as Wm.
    pose proof (within_exact velocity N1) as Wv.
    pose proof (mul_within _ _ _ _ _ _ N1 N1 N2 Wv Wv) as Wvv.
    pose proof (mul_within _ _ _ _ _ _ N0 N2 N3 Wm Wvv) as Wp.
    pose proof (div_within _ _ _ _ _ _ N3 N N4 Wp Wk) as We.
    cbn [Nat.add] in We.
    apply (within_bound 3); [lia | exact We].
Qed.

Lemma get_energy_accurate_witness :
  (Rabs (B2R (get_energy 450240 230 900 (-1))
         - Exact.get_energy (B2R 450240) (B2R 230) (B2R 900) (-1))
   <= bpow (-50) * Exact.get_energy (B2R 450240) (B2R 230) (B2R 900) (-1))%R.
Proof.
  apply (get_energy_accurate 450240 230 900 (-1)). vm_compute. reflexivity.
Defined.

(** X8. [get_mass] on doubles is accurate: when K, the velocity, the
    energy and every intermediate result are positive normal numbers, the
    mass is within a relative error of 2^-50 of the mass that the formula
    gives in exact arithmetic, energy / velocity^2 * K under imperial units
    and energy * 2 / velocity^2 * K under metric units. *)
Theorem get_mass_accurate (K velocity energy : double) (si : Z) :
  forallb pos_normal
    (K :: velocity :: energy :: mass_steps K velocity energy si) = true ->
  (Rabs (B2R (get_mass K velocity energy si)
         - Exact.get_mass (B2R K) (B2R velocity) (B2R energy) si)
   <= bpow (-50) * Exact.get_mass (B2R K) (B2R velocity) (B2R energy) si)%R.
Proof.
  unfold_formulas.
  destruct (si =? 1); cbn [forallb]; intro H; split_normal H.
  - pose proof (within_exact K N) as Wk.
    pose proof (within_exact velocity N0) as Wv.
    pose proof (within_exact energy N1) as We.
    pose proof (mul_within _ _ _ _ _ _ N1 pos_normal_two N2 We within_two)
      as Wt.
    pose proof (mul_within _ _ _ _ _ _ N0 N0 N3 Wv Wv) as Wvv.
    pose proof (div_within _ _ _ _ _ _ N2 N3 N4 Wt Wvv) as Wq.
    pose proof (mul_within _ _ _ _ _ _ N4 N N5 Wq Wk) as Wm.
    cbn [Nat.add] in Wm.
    apply (within_bound 4); [lia | exact Wm].
  - pose proof (within_exact K N) as Wk.
    pose proof (within_exact velocity N0) as Wv.
    pose proof (within_exact energy N1) as We.
    pose proof (mul_within _ _ _ _ _ _ N0 N0 N2 Wv Wv) as Wvv.
    pose proof (div_within _ _ _ _ _ _ N1 N2 N3 We Wvv) as Wq.
    pose proof (mul_within _ _ _ _ _ _ N3 N N4 Wq Wk) as Wm.
    cbn [Nat.add] in Wm.
    apply (within_bound 3); [lia | exact Wm].
Qed.

Lemma get_mass_accurate_witness :
  (Rabs (B2R (get_mass 1000 300 180 1)
         - Exact.get_mass (B2R 1000) (B2R 300) (B2R 180) 1)
   <= bpow (-50) * Exact.get_mass (B2R 1000) (B2R 300) (B2R 180) 1)%R.
Proof.
  apply (get_mass_accurate 1000 300 180 1). vm_compute. reflexivity.
Defined.

(** X9. [get_velocity] on doubles is accurate: when K, the mass, the
    energy and every intermediate result are positive normal numbers, the
    velocity is within a relative error of 2^-50 of the velocity that the
    formula gives in exact arithmetic, sqrt (energy / mass * K) under
    imperial units and sqrt (energy * 2 / mass * K) under metric units. *)
Theorem get_velocity_accurate (K mass energy : double) (si : Z) :
  forallb pos_normal
    (K :: mass :: energy :: velocity_steps K mass energy si) = true ->
  (Rabs (B2R (get_velocity K mass energy si)
         - Exact.get_velocity (B2R K) (B2R mass) (B2R energy) si)
   <= bpow (-50) * Exact.get_velocity (B2R K) (B2R mass) (B2R energy) si)%R.
Proof.
  unfold_formulas.
  destruct (si =? 1); cbn [forallb]; intro H; split_normal H.
  - pose proof (within_exact K N) as Wk.
    pose proof (within_exact mass N0) as Wm.
    pose proof (within_exact energy N1) as We.
    pose proof (mul_within _ _ _ _ _ _ N1 pos_normal_two N2 We within_two)
      as Wt.
    pose proof (div_within _ _ _ _ _ _ N2 N0 N3 Wt Wm) as Wq.
    pose proof (mul_within _ _ _ _ _ _ N3 N N4 Wq Wk) as Wr.
    cbn [Nat.add] in Wr.
    apply (within_weaken _ (2 + 2)) in Wr; [|lia].
    pose proof (sqrt_within _ _ _ N4 N5 Wr) as Wv.
    apply (within_bound 3); [lia | exact Wv].
  - pose proof (within_exact K N) as Wk.
    pose proof (within_exact mass N0) as Wm.
    pose proof (within_exact energy N1) as We.
    pose proof (div_within _ _ _ _ _ _ N1 N0 N2 We Wm) as Wq.
    pose proof (mul_within _ _ _ _ _ _ N2 N N3 Wq Wk) as Wr.
    cbn [Nat.add] in Wr.
    pose proof (sqrt_within _ 1 _ N3 N4 Wr) as Wv.
    apply (within_bound 2); [lia | exact Wv].
Qed.

Lemma get_velocity_accurate_witness :
  (Rabs (B2R (get_velocity 450240 230 414 (-1))
         - Exact.get_velocity (B2R 450240) (B2R 230) (B2R 414) (-1))
   <= bpow (-50)
      * Exact.get_velocity (B2R 450240) (B2R 230) (B2R 414) (-1))%R.
Proof.
  apply (get_velocity_accurate 450240 230 414 (-1)). vm_compute. reflexivity.
Defined.

(** ** The knockout score *)

Lemma B2R_small_integer (x : double) (n : positive) (k : Z) :
  0 < k -> Prim2SF x = S754_finite false (n * 2 ^ Z.to_pos k) (- k) ->
  B2R x = IZR (Zpos n).
Proof.
  intros Hk E. unfold B2R. rewrite E. cbn [SF2R cond_Zopp].
  rewrite bpow_opp, (bpow_IZR k) by lia.
  rewrite Pos2Z.inj_mul, Pos2Z.inj_pow, mult_IZR.
  rewrite Z2Pos.id by lia.
  assert (0 < IZR (2 ^ k))%R by (apply IZR_lt; apply Z.pow_pos_nonneg; lia).
  field. lra.
Qed.

Lemma B2R_7000 : B2R 7000 = 7000%R.
Proof. apply (B2R_small_integer 7000 7000 40); [lia | reflexivity]. Qed.

Lemma B2R_3500 : B2R 3500 = 3500%R.
Proof. apply (B2R_small_integer 3500 3500 41); [lia | reflexivity]. Qed.

Lemma within_7000 : within 0 7000 (B2R 7000).
Proof. rewrite B2R_7000. apply within_refl. lra. Qed.

Lemma within_3500 : within 0 3500 (B2R 3500).
Proof. rewrite B2R_3500. apply within_refl. lra. Qed.

(** [tkof] prints the score [knockout], always with two decimals. *)
Lemma tkof_prints_knockout (mass velocity diameter : double) (o : list Z)
    (w : world) :
  exists before,
    stdout_of (trace (tkof mass velocity diameter o w)) =
      stdout_of (trace w) ++ before ++
      fmt_f 2 (knockout (opt_get o OPT_SI) mass velocity diameter) ++
      (if opt_get o OPT_VERBOSE =? 1 then cat [" TKOF"; LF] else LF).
Proof.
  unfold tkof, knockout.
  destruct (opt_get o OPT_SI =? 1), (opt_get o OPT_VERBOSE =? 1);
    try destruct (opt_get o OPT_PRECISE =? 1);
    unfold seq, printf, fprintf, emit; cbn [K trace];
    rewrite <- ?app_assoc, stdout_of_app; cbn [stdout_of app cat];
    rewrite ?string_app_nil_r;
    lazymatch goal with
    | |- context [fmt_f 2 ?m ++ " g @ " ++ fmt_f 2 ?v ++ " m/s (" ++
                  fmt_f 2 ?d ++ " mm diameter) = " ++ _] =>
        exists (fmt_f 2 m ++ " g @ " ++ fmt_f 2 v ++ " m/s (" ++
                fmt_f 2 d ++ " mm diameter) = ")
    | |- context [?m ++ " gr @ " ++ ?v ++ " ft/s (" ++
                  ?d ++ DQUOTE ++ " diameter) = " ++ _] =>
        exists (m ++ " gr @ " ++ v ++ " ft/s (" ++
                d ++ DQUOTE ++ " diameter) = ")
    | |- _ => exists EmptyString
    end;
    rewrite ?string_app_assoc; reflexivity.
Qed.

(** X10. The knockout score that [tkof] prints is accurate: when the
    mass, the velocity, the diameter and every intermediate result are
    positive normal numbers, the score is within a relative error of 2^-50
    of mass * velocity * diameter / 7000 under imperial units and of
    mass * velocity * diameter / 3500 under metric units, computed in exact
    arithmetic; and [tkof] prints that score with two decimals in every
    mode. *)
Theorem knockout_accurate (si : Z) (mass velocity diameter : double) :
  forallb pos_normal
    (mass :: velocity :: diameter
     :: knockout_steps si mass velocity diameter) = true ->
  (Rabs (B2R (knockout si mass velocity diameter)
         - exact_knockout si (B2R mass) (B2R velocity) (B2R diameter))
   <= bpow (-50)
      * exact_knockout si (B2R mass) (B2R velocity) (B2R diameter))%R /\
  (forall (o : list Z) (w : world),
     opt_get o OPT_SI = si ->
     exists before,
       stdout_of (trace (tkof mass velocity diameter o w)) =
         stdout_of (trace w) ++ before ++
         fmt_f 2 (knockout si mass velocity diameter) ++
         (if opt_get o OPT_VERBOSE =? 1 then cat [" TKOF"; LF] else LF)).
Proof.
  intro H. split.
  2:{ intros o w <-. apply tkof_prints_knockout. }
  revert H. unfold knockout_steps, knockout, exact_knockout.
  destruct (si =? 1); cbn [forallb]; intro H; split_normal H.
  - pose proof (within_exact mass N) as Wm.
    pose proof (within_exact velocity N0) as Wv.
    pose proof (within_exact diameter N1) as Wd.
    pose proof (mul_within _ _ _ _ _ _ N N0 N2 Wm Wv) as Wp.
    pose proof (mul_within _ _ _ _ _ _ N2 N1 N3 Wp Wd) as Wq.
    pose proof (div_within _ _ _ _ _ _ N3 (eq_refl : pos_normal 3500 = true)
                  N4 Wq within_3500) as Wk.
    cbn [Nat.add] in Wk.
    apply (within_bound 3); [lia | exact Wk].
  - pose proof (within_exact mass N) as Wm.
    pose proof (within_exact velocity N0) as Wv.
    pose proof (within_exact diameter N1) as Wd.
    pose proof (mul_within _ _ _ _ _ _ N N0 N2 Wm Wv) as Wp.
    pose proof (mul_within _ _ _ _ _ _ N2 N1 N3 Wp Wd) as Wq.
    pose proof (div_within _ _ _ _ _ _ N3 (eq_refl : pos_normal 7000 = true)
                  N4 Wq within_7000) as Wk.
    cbn [Nat.add] in Wk.
    apply (within_bound 3); [lia | exact Wk].
Qed.

Lemma knockout_accurate_witness :
  (Rabs (B2R (knockout (-1) 500 2150 0.458)
         - exact_knockout (-1) (B2R 500) (B2R 2150) (B2R 0.458))
   <= bpow (-50)
      * exact_knockout (-1) (B2R 500) (B2R 2150) (B2R 0.458))%R /\
  (forall (o : list Z) (w : world),
     opt_get o OPT_SI = -1 ->
     exists before,
       stdout_of (trace (tkof 500 2150 0.458 o w)) =
         stdout_of (trace w) ++ before ++
         fmt_f 2 (knockout (-1) 500 2150 0.458) ++
         (if opt_get o OPT_VERBOSE =? 1 then cat [" TKOF"; LF] else LF)).
Proof.
  apply (knockout_accurate (-1) 500 2150 0.458). vm_compute. reflexivity.
Defined.

(** ** Zero divisors and signs *)

Lemma float_eq_by_spec (x y : double) : Prim2SF x = Prim2SF y -> x = y.
Proof.
  intro H. rewrite <- (SF2Prim_Prim2SF x), <- (SF2Prim_Prim2SF y).
  now rewrite H.
Qed.

Lemma div_by_zero (x : double) :
  pos_normal x = true -> (x / 0)%float = infinity.
Proof.
  intro H. apply float_eq_by_spec. rewrite div_spec.
  unfold pos_normal in H.
  destruct (Prim2SF x) as [s|s| |s m e]; try discriminate H.
  destruct s; [discriminate H|]. reflexivity.
Qed.

Lemma infinity_mul (x : double) :
  pos_normal x = true -> (infinity * x)%float = infinity.
Proof.
  intro H. apply float_eq_by_spec. rewrite mul_spec.
  unfold pos_normal in H.
  destruct (Prim2SF x) as [s|s| |s m e]; try discriminate H.
  destruct s; [discriminate H|]. reflexivity.
Qed.

(** X11. No divisor is checked.  With the constant 0 (as after -k 0, or
    after -k with a text that is not a number) [get_energy] returns
    infinity whenever the product it divides is a positive normal number;
    with the velocity 0 [get_mass] returns infinity, and with the mass 0
    [get_velocity] returns infinity, whenever the energy (doubled, under
    metric units) and K are positive normal numbers. *)
Theorem zero_divisors_give_infinity (K mass velocity energy : double)
    (si : Z) :
  (pos_normal (if si =? 1 then (mass / 2 * (velocity * velocity))%float
               else (mass * (velocity * velocity))%float) = true ->
   get_energy 0 mass velocity si = infinity) /\
  (pos_normal (if si =? 1 then (energy * 2)%float else energy) = true ->
   pos_normal K = true ->
   get_mass K 0 energy si = infinity /\
   get_velocity K 0 energy si = infinity).
Proof.
  unfold get_energy, get_mass, get_velocity,
         Formula.get_energy, Formula.get_mass, Formula.get_velocity.
  change (0 * 0)%float with 0%float.
  destruct (si =? 1); (split; [intro H; now apply div_by_zero|]);
    intros He Hk; rewrite (div_by_zero _ He), (infinity_mul _ Hk);
    split; reflexivity.
Qed.

Lemma zero_divisors_give_infinity_witness :
  get_energy 0 230 900 (-1) = infinity /\
  get_mass 450240 0 400 (-1) = infinity /\
  get_velocity 1000 0 400 1 = infinity /\
  stdout_of (trace (snd (main false ["muzz"; "-k"; "zero"; "230"; "900"]
                              initial_world))) =
    cat ["230 gr @ 900 ft/s = inf lbf"; LF].
Proof.
  split; [| split; [| split; [| reflexivity]]].
  - exact (proj1 (zero_divisors_give_infinity 450240 230 900 400 (-1))
             eq_refl).
  - exact (proj1 (proj2 (zero_divisors_give_infinity 450240 230 900 400 (-1))
                    eq_refl eq_refl)).
  - exact (proj2 (proj2 (zero_divisors_give_infinity 1000 230 900 400 1)
                    eq_refl eq_refl)).
Defined.



(** ** From the energy and back *)

Lemma within_bound_10 (n : nat) (X Y : R) :
  (n <= 10)%nat -> within n X Y ->
  (Rabs (Y - X) <= bpow (-49) * X)%R.
Proof.
  intros Hn H. apply (within_weaken n 10) in H; [|exact Hn].
  destruct H as (HX & HY & H1 & H2).
  pose proof u_bounds as Hu.
  pose proof (bernoulli_1mu 10) as Hb. simpl INR in Hb.
  pose proof (pow_1mu 10) as Ha.
  assert (E : bpow (-49) = (16 * u)%R).
  { unfold u. replace (-49) with (4 + -53) by lia.
    rewrite bpow_add, (bpow_IZR 4) by lia. reflexivity. }
  rewrite E. apply Rabs_le. split.
  - nra.
  - assert (1 <= (1 + 16 * u) * (1 - u) ^ 10)%R by nra.
    nra.
Qed.

(** X13. The energy comes back.  When K, the mass, the velocity, the
    energy and every intermediate result are positive normal numbers, the
    energy that [get_energy] computes from the mass of [get_mass] is within
    a relative error of 2^-50 of the energy that [get_mass] was given, and
    the energy that [get_energy] computes from the velocity of
    [get_velocity] is within 2^-49 of the energy that [get_velocity] was
    given, under either unit system. *)
Theorem energy_comes_back (K mass velocity energy : double) (si : Z) :
  forallb pos_normal
    (K :: mass :: velocity :: energy
     :: energy_back_steps K mass velocity energy si) = true ->
  (Rabs (B2R (get_energy K (get_mass K velocity energy si) velocity si)
         - B2R energy) <= bpow (-50) * B2R energy)%R /\
  (Rabs (B2R (get_energy K mass (get_velocity K mass energy si) si)
         - B2R energy) <= bpow (-49) * B2R energy)%R.
Proof.
  unfold energy_back_steps. unfold_formulas.
  destruct (si =? 1); cbn [forallb app]; intro H; split_normal H.
  - (* metric *)
    pose proof (within_exact K N) as Wk.
    pose proof (within_exact mass N0) as Wm.
    pose proof (within_exact energy N2) as We.
    pose proof (pos_normal_pos _ N). pose proof (pos_normal_pos _ N0).
    pose proof (pos_normal_pos _ N2). pose proof (pos_normal_pos _ N4).
    pose proof (mul_within _ _ _ _ _ _ N2 pos_normal_two N3 We within_two)
      as Wt.
    split.
    + pose proof (within_exact _ N4) as Wvv.
      pose proof (div_within _ _ _ _ _ _ N3 N4 N5 Wt Wvv) as Wq.
      pose proof (mul_within _ _ _ _ _ _ N5 N N6 Wq Wk) as Wa.
      pose proof (div_within _ _ _ _ _ _ N6 pos_normal_two N7 Wa within_two)
        as Wh.
      pose proof (mul_within _ _ _ _ _ _ N7 N4 N9 Wh Wvv) as Wp.
      pose proof (div_within _ _ _ _ _ _ N9 N N10 Wp Wk) as Wb.
      cbn [Nat.add] in Wb.
      apply (within_bound 6); [lia|].
      replace (B2R energy)
        with (B2R energy * 2 / B2R (velocity * velocity) * B2R K / 2
              * B2R (velocity * velocity) / B2R K)%R at 1
        by (field; lra).
      exact Wb.
    + pose proof (div_within _ _ _ _ _ _ N3 N0 N12 Wt Wm) as Wq.
      pose proof (mul_within _ _ _ _ _ _ N12 N N13 Wq Wk) as Wr.
      cbn [Nat.add] in Wr.
      apply (within_weaken _ (2 + 2)) in Wr; [|lia].
      pose proof (sqrt_within _ _ _ N13 N14 Wr) as Wv.
      pose proof (div_within _ _ _ _ _ _ N0 pos_normal_two N15 Wm within_two)
        as Wh.
      pose proof (mul_within _ _ _ _ _ _ N14 N14 N16 Wv Wv) as Wvv.
      pose proof (mul_within _ _ _ _ _ _ N15 N16 N17 Wh Wvv) as Wp.
      pose proof (div_within _ _ _ _ _ _ N17 N N18 Wp Wk) as Wb.
      cbn [Nat.add] in Wb.
      apply (within_bound_10 10); [lia|].
      replace (B2R energy)
        with (B2R mass / 2
              * (sqrt (B2R energy * 2 / B2R mass * B2R K)
                 * sqrt (B2R energy * 2 / B2R mass * B2R K))
              / B2R K)%R at 1.
      * exact Wb.
      * rewrite sqrt_sqrt; [field; lra|].
        apply Rlt_le. apply Rmult_lt_0_compat; [|lra].
        apply Rdiv_lt_0_compat; lra.
  - (* imperial *)
    pose proof (within_exact K N) as Wk.
    pose proof (within_exact mass N0) as Wm.
    pose proof (within_exact energy N2) as We.
    pose proof (pos_normal_pos _ N). pose proof (pos_normal_pos _ N0).
    pose proof (pos_normal_pos _ N2). pose proof (pos_normal_pos _ N3).
    split.
    + pose proof (within_exact _ N3) as Wvv.
      pose proof (div_within _ _ _ _ _ _ N2 N3 N4 We Wvv) as Wq.
      pose proof (mul_within _ _ _ _ _ _ N4 N N5 Wq Wk) as Wa.
      pose proof (mul_within _ _ _ _ _ _ N5 N3 N7 Wa Wvv) as Wp.
      pose proof (div_within _ _ _ _ _ _ N7 N N8 Wp Wk) as Wb.
      cbn [Nat.add] in Wb.
      apply (within_bound 4); [lia|].
      replace (B2R energy)
        with (B2R energy / B2R (velocity * velocity) * B2R K
              * B2R (velocity * velocity) / B2R K)%R at 1
        by (field; lra).
      exact Wb.
    + pose proof (div_within _ _ _ _ _ _ N2 N0 N9 We Wm) as Wq.
      pose proof (mul_within _ _ _ _ _ _ N9 N N10 Wq Wk) as Wr.
      cbn [Nat.add] in Wr.
      pose proof (sqrt_within _ 1 _ N10 N11 Wr) as Wv.
      pose proof (mul_within _ _ _ _ _ _ N11 N11 N12 Wv Wv) as Wvv.
      pose proof (mul_within _ _ _ _ _ _ N0 N12 N13 Wm Wvv) as Wp.
      pose proof (div_within _ _ _ _ _ _ N13 N N14 Wp Wk) as Wb.
      cbn [Nat.add] in Wb.
      apply (within_bound_10 7); [lia|].
      replace (B2R energy)
        with (B2R mass
              * (sqrt (B2R energy / B2R mass * B2R K)
                 * sqrt (B2R energy / B2R mass * B2R K))
              / B2R K)%R at 1.
      * exact Wb.
      * rewrite sqrt_sqrt; [field; lra|].
        apply Rlt_le. apply Rmult_lt_0_compat; [|lra].
        apply Rdiv_lt_0_compat; lra.
Qed.

Lemma energy_comes_back_witness :
  (Rabs (B2R (get_energy 1000 (get_mass 1000 300 180 1) 300 1)
         - B2R 180) <= bpow (-50) * B2R 180)%R /\
  (Rabs (B2R (get_energy 1000 4 (get_velocity 1000 4 180 1) 1)
         - B2R 180) <= bpow (-49) * B2R 180)%R.
Proof.
  apply (energy_comes_back 1000 4 300 180 1). vm_compute. reflexivity.
Defined.

(** ** What the extended help says *)

(** X14. The extended help (-H) prints, for metric units, the formula
    ( 2 * mass * (velocity*velocity)) / K, which is not what the program
    computes: [get_energy] gives a quarter of it, (mass / 2) * velocity^2
    / K, for every mass, velocity and K in exact arithmetic.  The imperial
    formula that the help prints is the one computed. *)
Theorem printed_metric_formula_differs (k m v : R) :
  let help := stdout_of (trace (print_additional_help initial_world)) in
  occurs_in (cat ["  Si:"; TAB; TAB; "( 2 * mass * (velocity*velocity)) / K";
                  LF]) help = true /\
  occurs_in (cat ["  Imperial:"; TAB; "( mass * (velocity*velocity)) / K";
                  LF]) help = true /\
  Exact.get_energy k m v (-1) = (m * (v * v) / k)%R /\
  (4 * Exact.get_energy k m v 1 = 2 * m * (v * v) / k)%R.
Proof.
  cbv zeta. split; [vm_compute; reflexivity|].
  split; [vm_compute; reflexivity|].
  unfold Exact.get_energy, Formula.get_energy.
  change (-1 =? 1) with false. change (1 =? 1) with true. cbv iota.
  split; [reflexivity | unfold Rdiv; generalize (/ k)%R; intro ik; field].
Qed.

(** ** One line per run *)

Lemma newlines_app (a b : string) :
  newlines (a ++ b) = (newlines a + newlines b)%nat.
Proof.
  induction a as [|c a IH]; simpl; [reflexivity | rewrite IH; lia].
Qed.

Lemma newlines_uint (d : Decimal.uint) :
  newlines (NilEmpty.string_of_uint d) = 0%nat.
Proof. induction d; simpl; auto. Qed.

Lemma newlines_int_digits (n : Z) : newlines (int_digits n) = 0%nat.
Proof.
  unfold int_digits, NilZero.string_of_uint.
  destruct (N.to_uint (Z.to_N n)); try reflexivity;
    apply (newlines_uint (_ _)).
Qed.

Lemma newlines_digit_char (d : Z) :
  0 <= d < 10 -> newlines (digit_char d) = 0%nat.
Proof.
  intro H. unfold digit_char.
  assert (E : d = 0 \/ d = 1 \/ d = 2 \/ d = 3 \/ d = 4 \/ d = 5 \/ d = 6 \/
              d = 7 \/ d = 8 \/ d = 9) by lia.
  repeat (destruct E as [-> | E]; [reflexivity|]). subst d. reflexivity.
Qed.

Lemma newlines_frac_digits (p : nat) (n : Z) :
  newlines (frac_digits p n) = 0%nat.
Proof.
  induction p as [|p IH]; cbn [frac_digits]; [reflexivity|].
  rewrite newlines_app, IH, newlines_digit_char; [reflexivity|].
  apply Z.mod_pos_bound. lia.
Qed.

Lemma newlines_fixed_digits (p : nat) (n : Z) :
  newlines (fixed_digits p n) = 0%nat.
Proof.
  unfold fixed_digits. rewrite newlines_app, newlines_int_digits.
  destruct p; [reflexivity|].
  rewrite newlines_app, newlines_frac_digits. reflexivity.
Qed.

(** [printf] writes no newline for a number. *)
Lemma newlines_fmt_f (p : nat) (x : double) : newlines (fmt_f p x) = 0%nat.
Proof.
  unfold fmt_f.
  destruct (Prim2SF x) as [s|s| |s m e]; try reflexivity;
    rewrite newlines_app; try rewrite newlines_fixed_digits;
    destruct s; reflexivity.
Qed.

Lemma newlines_cat (l : list string) :
  Forall (fun s => newlines s = 0%nat) l -> newlines (cat l) = 0%nat.
Proof.
  induction 1 as [|s l Hs _ IH]; simpl; [reflexivity|].
  now rewrite newlines_app, Hs, IH.
Qed.

Lemma cat_app (l l' : list string) : cat (l ++ l') = cat l ++ cat l'.
Proof.
  induction l as [|s l IH]; simpl; [reflexivity|].
  now rewrite IH, string_app_assoc.
Qed.

Lemma one_line_cat (l : list string) :
  Forall (fun s => newlines s = 0%nat) l -> one_line (cat (l ++ [LF])).
Proof.
  intro H. exists (cat l). split; [|now apply newlines_cat].
  rewrite cat_app. cbn [cat]. now rewrite string_app_nil_r.
Qed.

Ltac no_newline :=
  repeat first [ apply Forall_nil
               | apply Forall_cons; [first [apply newlines_fmt_f | reflexivity]|] ].

Ltac one_line_printf :=
  unfold seq, printf, fprintf, emit; cbn [K trace];
  rewrite <- ?app_assoc, stdout_of_app; cbn [stdout_of app];
  rewrite ?string_app_nil_r;
  eexists; split; [reflexivity|];
  lazymatch goal with
  | |- one_line (cat ?l ++ cat ["TKOF"; LF]) =>
      replace (cat l ++ cat ["TKOF"; LF])
        with (cat ((l ++ ["TKOF"]) ++ [LF]))
        by (rewrite !cat_app; cbn [cat]; rewrite ?string_app_nil_r,
              ?string_app_assoc; reflexivity);
      apply one_line_cat; cbn [app]; no_newline
  | |- one_line (cat ?l) =>
      let l' := eval cbn [removelast] in (removelast l) in
      change (cat l) with (cat (l' ++ [LF]));
      apply one_line_cat; no_newline
  end.

Lemma tkof_one_line (mass velocity diameter : double) (o : list Z)
    (w : world) :
  exists s,
    stdout_of (trace (tkof mass velocity diameter o w)) =
      stdout_of (trace w) ++ s /\ one_line s.
Proof.
  unfold tkof.
  destruct (opt_get o OPT_SI =? 1), (opt_get o OPT_VERBOSE =? 1);
    try destruct (opt_get o OPT_PRECISE =? 1); one_line_printf.
Qed.

Lemma result_one_line (mass velocity energy : double) (param : Z)
    (o : list Z) (w : world) :
  param = PARAM_MASS \/ param = PARAM_VELOCITY \/ param = PARAM_ENERGY ->
  exists s,
    stdout_of (trace (result mass velocity energy param o w)) =
      stdout_of (trace w) ++ s /\ one_line s.
Proof.
  intro Hp. unfold result, solve, verbose_result. rewrite resolve_K_spec.
  destruct Hp as [-> | [-> | ->]]; param_eqb;
    destruct (opt_get o OPT_VERBOSE =? 1); cbn [negb];
    destruct (opt_get o OPT_SI =? 1), (opt_get o OPT_PRECISE =? 1);
    unfold skip; one_line_printf.
Qed.

(** X15. Every run that reaches a formula writes exactly one line to the
    standard output, in every mode and for every operand: what it appends
    ends with a newline and contains no other, whatever the numbers are
    (infinities and NaN included). *)
Theorem a_run_writes_one_line (posix : bool) (argv : list string)
    (w : world) :
  let rs := fst (getopt_scan posix (tl argv)) in
  let ops := snd (getopt_scan posix (tl argv)) in
  first_info rs = None ->
  too_few rs ops = false ->
  exists s,
    stdout_of (trace (snd (main posix argv w))) = stdout_of (trace w) ++ s /\
    one_line s.
Proof.
  intros rs ops F T. subst rs ops.
  destruct (main_cases posix argv w)
    as [(c & w1 & Fc & _) | [(w1 & _ & T' & _)
       | (o & w1 & p1 & p2 & rest & _ & _ & _ & P & E)]];
    try congruence.
  rewrite E. cbn [snd].
  destruct P as (_ & _ & _ & _ & _ & _ & _ & S1 & _). rewrite <- S1.
  unfold formula_run.
  destruct (tkof_of (fst (getopt_scan posix (tl argv))) =? 1).
  - apply tkof_one_line.
  - destruct (standard_inputs _ p1 p2) as [[m v] e].
    apply result_one_line. apply wanted_of_cases.
Qed.

Lemma a_run_writes_one_line_witness :
  exists s,
    stdout_of (trace (snd (main false ["muzz"; "-t"; "230"; "860"; ".45"]
                                initial_world))) =
      stdout_of (trace initial_world) ++ s /\
    one_line s.
Proof.
  exact (a_run_writes_one_line false ["muzz"; "-t"; "230"; "860"; ".45"]
           initial_world eq_refl eq_refl).
Defined.
